(** * page-watcher: a verified model of [watch_page.py]

    The script fetches a page, normalises its text, compares the SHA-256
    digest of the text with the digest of the snapshot kept in a file, and
    on a difference mails a unified diff and overwrites the snapshot.

    Python values are embedded as follows.
    - [str] is a list of Unicode code points ([N]); [bytes] is a list of
      octets ([N] below 256).
    - [None]-or-value results are [option].
    - Indices of [difflib] are [Z], since the library computes [j-1] at
      [j = 0] and [i2-n] below zero.
    - Dictionaries of [difflib] are [gmap]s.
    - Effects (network, file, SMTP, standard output) are threaded through a
      state-and-exception monad over a [World]. *)

From Stdlib Require Import NArith ZArith Lia String Ascii DecimalString.
From stdpp Require Import base list strings gmap.

Local Open Scope N_scope.

(** ** Strings *)

Module Str.

Definition char := N.
Definition str := list char.

(** A literal of the source text (ASCII only) as a [str]. *)
Fixpoint lit (s : string) : str :=
  match s with
  | EmptyString => []
  | String a s' => N_of_ascii a :: lit s'
  end.

Definition LF : char := 10.
Definition CR : char := 13.

(** The line boundaries of [str.splitlines]: U+000A to U+000D, U+001C to
    U+001E, U+0085, U+2028 and U+2029. *)
Definition is_linebreak (c : char) : bool :=
  ((10 <=? c) && (c <=? 13)) || ((28 <=? c) && (c <=? 30))
  || (c =? 0x85) || (c =? 0x2028) || (c =? 0x2029).

(** The whitespace of [str.strip] and [str.isspace]. *)
Definition is_space (c : char) : bool :=
  ((9 <=? c) && (c <=? 13)) || ((28 <=? c) && (c <=? 31))
  || (c =? 32) || (c =? 0x85) || (c =? 0xA0) || (c =? 0x1680)
  || ((0x2000 <=? c) && (c <=? 0x200A))
  || (c =? 0x2028) || (c =? 0x2029) || (c =? 0x202F) || (c =? 0x205F)
  || (c =? 0x3000).

Definition nobreak (c : char) : Prop := is_linebreak c = false.

(** [bool(s)] for a string: the empty string is false. *)
Definition truthy (s : str) : bool :=
  match s with [] => false | _ :: _ => true end.

(** [s.splitlines()]: scan to the next line boundary, emit the line
    without it, read \r\n as one boundary; [line] is the part of the
    current line already scanned. *)
Fixpoint splitlines_from (line : str) (s : str) : list str :=
  match s with
  | [] => if truthy line then [line] else []
  | c :: rest =>
      if is_linebreak c then
        line ::
          match rest with
          | d :: rest' =>
              if (c =? CR) && (d =? LF) then splitlines_from [] rest'
              else splitlines_from [] rest
          | [] => []
          end
      else splitlines_from (line ++ [c]) rest
  end.

Definition splitlines (s : str) : list str := splitlines_from [] s.

(** [s.lstrip()], [s.rstrip()], [s.strip()]. *)
Fixpoint lstrip (s : str) : str :=
  match s with
  | [] => []
  | c :: rest => if is_space c then lstrip rest else s
  end.

Definition rstrip (s : str) : str := rev (lstrip (rev s)).

Definition strip (s : str) : str := rstrip (lstrip s).

(** [sep.join(parts)]. *)
Fixpoint join (sep : str) (parts : list str) : str :=
  match parts with
  | [] => []
  | [p] => p
  | p :: more => p ++ sep ++ join sep more
  end.

End Str.
Export Str.

(** Lines written as literals, one newline between them. *)
Definition nl_join (ls : list string) : str := join [LF] (map lit ls).

(** ** The normaliser *)

(** [normalize_text], lines 70-76. *)
Definition normalize_text (text : str) : str :=
  let lines := map strip (splitlines text) in
  let lines := List.filter truthy lines in
  join [LF] lines.


(** ** UTF-8 and SHA-256 *)

Definition bytes := list N.

(** Failures of the program: the exceptions that the runs of the model
    let escape. *)
Inductive exn : Type :=
  | UnicodeEncodeError
  | RequestException
  | PlaywrightError
  | RuntimeError (msg : str)
  | FileNotFoundError
  | SMTPException.

Inductive result (A : Type) : Type :=
  | Ok (a : A)
  | Raise (e : exn).
Arguments Ok {A} a.
Arguments Raise {A} e.

Module UTF8.

(** One code point; surrogates (and values that are no code point) have
    no encoding. *)
Definition encode_char (c : char) : option bytes :=
  if c <? 0x80 then Some [c]
  else if c <? 0x800 then
    Some [N.lor 0xC0 (N.shiftr c 6); N.lor 0x80 (N.land c 0x3F)]
  else if c <? 0x10000 then
    if (0xD800 <=? c) && (c <=? 0xDFFF) then None
    else Some [N.lor 0xE0 (N.shiftr c 12);
               N.lor 0x80 (N.land (N.shiftr c 6) 0x3F);
               N.lor 0x80 (N.land c 0x3F)]
  else if c <? 0x110000 then
    Some [N.lor 0xF0 (N.shiftr c 18);
          N.lor 0x80 (N.land (N.shiftr c 12) 0x3F);
          N.lor 0x80 (N.land (N.shiftr c 6) 0x3F);
          N.lor 0x80 (N.land c 0x3F)]
  else None.

(** [s.encode("utf-8")]; [None] is [UnicodeEncodeError]. *)
Fixpoint encode (s : str) : option bytes :=
  match s with
  | [] => Some []
  | c :: rest =>
      match encode_char c, encode rest with
      | Some bs, Some more => Some (bs ++ more)
      | _, _ => None
      end
  end.

End UTF8.

Module SHA256.

Definition word := N.

Definition mask32 : N := 0xFFFFFFFF.
Definition add32 (x y : word) : word := (x + y) mod 2 ^ 32.
Definition rotr (n : N) (x : word) : word :=
  N.lor (N.shiftr x n) (N.land (N.shiftl x (32 - n)) mask32).
Definition shr (n : N) (x : word) : word := N.shiftr x n.
Definition not32 (x : word) : word := N.lxor x mask32.

Definition Ch (x y z : word) : word :=
  N.lxor (N.land x y) (N.land (not32 x) z).
Definition Maj (x y z : word) : word :=
  N.lxor (N.lxor (N.land x y) (N.land x z)) (N.land y z).
Definition Sigma0 (x : word) : word :=
  N.lxor (N.lxor (rotr 2 x) (rotr 13 x)) (rotr 22 x).
Definition Sigma1 (x : word) : word :=
  N.lxor (N.lxor (rotr 6 x) (rotr 11 x)) (rotr 25 x).
Definition sigma0 (x : word) : word :=
  N.lxor (N.lxor (rotr 7 x) (rotr 18 x)) (shr 3 x).
Definition sigma1 (x : word) : word :=
  N.lxor (N.lxor (rotr 17 x) (rotr 19 x)) (shr 10 x).

(** The constants are the first 32 bits of the fractional parts of the
    square roots (initial hash value) and cube roots (round constants) of
    the first primes. *)
Definition is_prime (n : N) : bool :=
  (2 <=? n)
  && forallb (fun d => negb (n mod d =? 0))
             (map N.of_nat (seq 2 (N.to_nat n - 2))).

Definition primes (count : nat) : list N :=
  take count (List.filter is_prime (map N.of_nat (seq 2 310))).

(** The integer [k]-th root of [n], found from the top bit down: [r] holds
    the bits already decided, [bits] counts those still open. *)
Fixpoint root_bits (k n : N) (bits : nat) (r : N) : N :=
  match bits with
  | O => r
  | S bits' =>
      let r' := r + 2 ^ N.of_nat bits' in
      root_bits k n bits' (if r' ^ k <=? n then r' else r)
  end.

Definition frac_root (k p : N) : word :=
  root_bits k (p * 2 ^ (32 * k)) 40 0 mod 2 ^ 32.

Definition K : list word := Eval vm_compute in map (frac_root 3) (primes 64).

Definition H0 : list word := Eval vm_compute in map (frac_root 2) (primes 8).

(** Big-endian octets of a number, [n] of them. *)
Fixpoint be_bytes (n : nat) (x : N) : bytes :=
  match n with
  | O => []
  | S n' => (N.shiftr x (8 * N.of_nat n')) mod 256 :: be_bytes n' x
  end.

Definition be_word (bs : bytes) : word :=
  fold_left (fun acc b => acc * 256 + b) bs 0.

(** The message, a 1 bit, zeros up to 56 modulo 64 octets, and the length
    in bits on 8 octets. *)
Definition pad (msg : bytes) : bytes :=
  let len := N.of_nat (length msg) in
  let zeros := (64 + 55 - len mod 64) mod 64 in
  msg ++ [0x80] ++ repeat 0 (N.to_nat zeros) ++ be_bytes 8 (8 * len).

(** Cut into pieces of [n] elements;
    [fuel] bounds the number of pieces. *)
Fixpoint chunks {A} (n : nat) (fuel : nat) (l : list A) : list (list A) :=
  match fuel with
  | O => []
  | S fuel' =>
      match l with
      | [] => []
      | _ :: _ => take n l :: chunks n fuel' (drop n l)
      end
  end.

(** The message schedule: 16 words of the block, then 48 derived. *)
Fixpoint extend (n : nat) (w : list word) : list word :=
  match n with
  | O => w
  | S n' =>
      let t := length w in
      let at_ k := nth (t - k) w 0 in
      extend n' (w ++ [add32 (add32 (add32 (sigma1 (at_ 2%nat)) (at_ 7%nat))
                                    (sigma0 (at_ 15%nat))) (at_ 16%nat)])
  end.

Definition schedule (block : bytes) : list word :=
  extend 48 (map be_word (chunks 4 16 block)).

Record regs := Regs { ra : word; rb : word; rc : word; rd : word;
                      re : word; rf : word; rg : word; rh : word }.

Definition round (s : regs) (kw : word * word) : regs :=
  let '(k, w) := kw in
  let t1 := add32 (add32 (add32 (add32 (rh s) (Sigma1 (re s)))
                                (Ch (re s) (rf s) (rg s))) k) w in
  let t2 := add32 (Sigma0 (ra s)) (Maj (ra s) (rb s) (rc s)) in
  Regs (add32 t1 t2) (ra s) (rb s) (rc s) (add32 (rd s) t1) (re s) (rf s) (rg s).

Definition regs_of (h : list word) : regs :=
  Regs (nth 0 h 0) (nth 1 h 0) (nth 2 h 0) (nth 3 h 0)
       (nth 4 h 0) (nth 5 h 0) (nth 6 h 0) (nth 7 h 0).

Definition words_of (s : regs) : list word :=
  [ra s; rb s; rc s; rd s; re s; rf s; rg s; rh s].

Definition compress (h : list word) (block : bytes) : list word :=
  let s := fold_left round (combine K (schedule block)) (regs_of h) in
  map (fun p => add32 (fst p) (snd p)) (combine h (words_of s)).

Definition digest (msg : bytes) : bytes :=
  let padded := pad msg in
  let blocks := chunks 64 (length padded) padded in
  flat_map (be_bytes 4) (fold_left compress blocks H0).

Definition hex_digit (d : N) : char :=
  if d <? 10 then 48 + d else 87 + d.

(** [.hexdigest()]: two lower-case hexadecimal digits per octet. *)
Definition hexdigest (msg : bytes) : str :=
  flat_map (fun b => [hex_digit (b / 16); hex_digit (b mod 16)]) (digest msg).

End SHA256.

(** [make_hash], lines 78-79. *)
Definition make_hash (s : str) : result str :=
  match UTF8.encode s with
  | Some bs => Ok (SHA256.hexdigest bs)
  | None => Raise UnicodeEncodeError
  end.

(** ** [difflib.unified_diff]

    The standard library's line differ, as [generate_diff] calls it: no
    junk predicate, [autojunk] on, three lines of context. *)

Module DiffLib.

Local Open Scope Z_scope.

(** [a[i1:i2]] for indices that are not negative. *)
Definition slice {A} (l : list A) (i1 i2 : Z) : list A :=
  take (Z.to_nat i2 - Z.to_nat i1) (drop (Z.to_nat i1) l).

(** [str(n)] of an integer. *)
Definition str_of_Z (n : Z) : str := lit (NilZero.string_of_int (Z.to_int n)).

Record Match := mkMatch { m_a : Z; m_b : Z; m_size : Z }.

Inductive tag := Replace | Delete | Insert | Equal.

Record opcode := Op { op_tag : tag; op_i1 : Z; op_i2 : Z; op_j1 : Z; op_j2 : Z }.

Definition is_equal (t : tag) : bool :=
  match t with Equal => true | _ => false end.

Section SequenceMatcher.

(** [SequenceMatcher(None, a, b)]. *)
Variables a b : list str.

Definition la : Z := Z.of_nat (length a).
Definition lb : Z := Z.of_nat (length b).

(** [__chain_b]: the positions of every line of [b]; with 200 lines or
    more, the lines that fill more than 1% of [b] (plus one) are
    dropped as popular. *)
Definition b2j_all : gmap str (list Z) :=
  fold_left
    (fun m (ie : nat * str) =>
       <[ie.2 := default [] (m !! ie.2) ++ [Z.of_nat ie.1]]> m)
    (imap pair b) ∅.

Definition b2j : gmap str (list Z) :=
  if 200 <=? lb then
    let ntest := lb / 100 + 1 in
    filter (fun kv => Z.of_nat (length kv.2) <= ntest) b2j_all
  else b2j_all.

(** No junk predicate: [bjunk] is the empty set. *)
Definition isbjunk (elt : str) : bool := false.

Definition a_at (i : Z) : option str := a !! Z.to_nat i.
Definition b_at (j : Z) : option str := b !! Z.to_nat j.

(** [a[i] == b[j]] for indices in range. *)
Definition same_line (i j : Z) : bool :=
  match a_at i, b_at j with
  | Some x, Some y => bool_decide (x = y)
  | _, _ => false
  end.

Definition b_junk_at (j : Z) : bool :=
  match b_at j with Some y => isbjunk y | None => false end.

Section FindLongestMatch.

Variables alo ahi blo bhi : Z.

(** The loop over the positions [j] of [a[i]] in [b]. *)
Fixpoint scan_row (i : Z) (js : list Z) (j2len newj2len : gmap Z Z)
         (best : Match) : gmap Z Z * Match :=
  match js with
  | [] => (newj2len, best)
  | j :: js' =>
      if j <? blo then scan_row i js' j2len newj2len best
      else if bhi <=? j then (newj2len, best)
      else
        let k := default 0 (j2len !! (j - 1)) + 1 in
        let newj2len := <[j := k]> newj2len in
        let best :=
          if m_size best <? k then mkMatch (i - k + 1) (j - k + 1) k
          else best in
        scan_row i js' j2len newj2len best
  end.

(** The loop over [i] in [range(alo, ahi)]. *)
Definition scan_rows : Match :=
  snd (fold_left
         (fun (st : gmap Z Z * Match) i =>
            let js := match a_at i with
                      | Some elt => default [] (b2j !! elt)
                      | None => []
                      end in
            scan_row i js st.1 ∅ st.2)
         (seqZ alo (ahi - alo)) (∅, mkMatch alo blo 0)).

(** The two [while] loops that grow the match at its ends;
    [junk] selects the pass over junk or over non-junk lines. The
    fuel is the room left, which bounds the iterations. *)
Fixpoint extend_left (junk : bool) (fuel : nat) (m : Match) : Match :=
  match fuel with
  | O => m
  | S fuel' =>
      if (alo <? m_a m) && (blo <? m_b m)
         && bool_decide (b_junk_at (m_b m - 1) = junk)
         && same_line (m_a m - 1) (m_b m - 1)
      then extend_left junk fuel'
             (mkMatch (m_a m - 1) (m_b m - 1) (m_size m + 1))
      else m
  end.

Fixpoint extend_right (junk : bool) (fuel : nat) (m : Match) : Match :=
  match fuel with
  | O => m
  | S fuel' =>
      if (m_a m + m_size m <? ahi) && (m_b m + m_size m <? bhi)
         && bool_decide (b_junk_at (m_b m + m_size m) = junk)
         && same_line (m_a m + m_size m) (m_b m + m_size m)
      then extend_right junk fuel' (mkMatch (m_a m) (m_b m) (m_size m + 1))
      else m
  end.

Definition grow (junk : bool) (m : Match) : Match :=
  let m := extend_left junk (Z.to_nat (m_a m - alo)) m in
  extend_right junk (Z.to_nat (ahi - (m_a m + m_size m))) m.

Definition find_longest_match : Match :=
  grow true (grow false scan_rows).

End FindLongestMatch.

(** The work list of [get_matching_blocks]; the head of the list is
    the end of Python's list, where [pop] and [append] work. *)
Fixpoint matching_loop (fuel : nat) (queue : list (Z * Z * Z * Z))
         (blocks : list Match) : list Match :=
  match fuel, queue with
  | S fuel', (alo, ahi, blo, bhi) :: queue =>
      let x := find_longest_match alo ahi blo bhi in
      let '(i, j, k) := (m_a x, m_b x, m_size x) in
      if k =? 0 then matching_loop fuel' queue blocks
      else
        let queue :=
          if (alo <? i) && (blo <? j) then (alo, i, blo, j) :: queue
          else queue in
        let queue :=
          if (i + k <? ahi) && (j + k <? bhi) then (i + k, ahi, j + k, bhi) :: queue
          else queue in
        matching_loop fuel' queue (blocks ++ [x])
  | _, _ => blocks
  end.

(** Tuples compare lexicographically. *)
Definition match_leb (x y : Match) : bool :=
  (m_a x <? m_a y)
  || ((m_a x =? m_a y)
      && ((m_b x <? m_b y) || ((m_b x =? m_b y) && (m_size x <=? m_size y)))).

Fixpoint insert_sorted (x : Match) (l : list Match) : list Match :=
  match l with
  | [] => [x]
  | y :: l' => if match_leb x y then x :: l else y :: insert_sorted x l'
  end.

Definition sort_matches (l : list Match) : list Match :=
  fold_right insert_sorted [] l.

(** Merging the blocks that touch. *)
Fixpoint collapse (cur : Match) (l : list Match) : list Match :=
  match l with
  | [] => if m_size cur =? 0 then [] else [cur]
  | x :: l' =>
      if (m_a cur + m_size cur =? m_a x) && (m_b cur + m_size cur =? m_b x)
      then collapse (mkMatch (m_a cur) (m_b cur) (m_size cur + m_size x)) l'
      else (if m_size cur =? 0 then [] else [cur]) ++ collapse x l'
  end.

(** Every pass of the loop either drops a range or splits it around a
    match that takes a line of [a], so [2 * len(a) + 1] passes end it. *)
Definition matching_fuel : nat := 2 * length a + 1.

Definition get_matching_blocks : list Match :=
  let blocks := matching_loop matching_fuel [(0, la, 0, lb)] [] in
  collapse (mkMatch 0 0 0) (sort_matches blocks) ++ [mkMatch la lb 0].

Fixpoint opcodes_from (i j : Z) (blocks : list Match) : list opcode :=
  match blocks with
  | [] => []
  | mkMatch ai bj size :: blocks' =>
      (if (i <? ai) && (j <? bj) then [Op Replace i ai j bj]
       else if i <? ai then [Op Delete i ai j bj]
       else if j <? bj then [Op Insert i ai j bj]
       else [])
      ++ (if size =? 0 then [] else [Op Equal ai (ai + size) bj (bj + size)])
      ++ opcodes_from (ai + size) (bj + size) blocks'
  end.

Definition get_opcodes : list opcode := opcodes_from 0 0 get_matching_blocks.

(** [get_grouped_opcodes(n)]. *)
Definition trim_first (n : Z) (codes : list opcode) : list opcode :=
  match codes with
  | Op Equal i1 i2 j1 j2 :: rest =>
      Op Equal (Z.max i1 (i2 - n)) i2 (Z.max j1 (j2 - n)) j2 :: rest
  | _ => codes
  end.

Fixpoint trim_last (n : Z) (codes : list opcode) : list opcode :=
  match codes with
  | [] => []
  | [Op Equal i1 i2 j1 j2] =>
      [Op Equal i1 (Z.min i2 (i1 + n)) j1 (Z.min j2 (j1 + n))]
  | c :: rest => c :: trim_last n rest
  end.

Fixpoint group_loop (n : Z) (codes : list opcode) (group : list opcode)
  : list (list opcode) :=
  match codes with
  | [] =>
      match group with
      | [] => []
      | [Op Equal _ _ _ _] => []
      | _ => [group]
      end
  | Op t i1 i2 j1 j2 :: rest =>
      if is_equal t && (n + n <? i2 - i1) then
        (group ++ [Op t i1 (Z.min i2 (i1 + n)) j1 (Z.min j2 (j1 + n))])
          :: group_loop n rest [Op t (Z.max i1 (i2 - n)) i2 (Z.max j1 (j2 - n)) j2]
      else group_loop n rest (group ++ [Op t i1 i2 j1 j2])
  end.

Definition get_grouped_opcodes (n : Z) : list (list opcode) :=
  let codes := get_opcodes in
  let codes := match codes with [] => [Op Equal 0 1 0 1] | _ => codes end in
  group_loop n (trim_last n (trim_first n codes)) [].

End SequenceMatcher.

Definition _format_range_unified (start stop : Z) : str :=
  let beginning := start + 1 in
  let length := stop - start in
  if length =? 1 then str_of_Z beginning
  else
    let beginning := if length =? 0 then beginning - 1 else beginning in
    str_of_Z beginning ++ lit "," ++ str_of_Z length.

Definition TAB : char := 9%N.

Definition hunk_lines (a b : list str) (c : opcode) : list str :=
  match op_tag c with
  | Equal => map (app (lit " ")) (slice a (op_i1 c) (op_i2 c))
  | Replace =>
      map (app (lit "-")) (slice a (op_i1 c) (op_i2 c))
      ++ map (app (lit "+")) (slice b (op_j1 c) (op_j2 c))
  | Delete => map (app (lit "-")) (slice a (op_i1 c) (op_i2 c))
  | Insert => map (app (lit "+")) (slice b (op_j1 c) (op_j2 c))
  end.

Definition hunk (a b : list str) (lineterm : str) (group : list opcode)
  : list str :=
  let first := default (Op Equal 0 0 0 0) (head group) in
  let last_ := default (Op Equal 0 0 0 0) (last group) in
  let file1_range := _format_range_unified (op_i1 first) (op_i2 last_) in
  let file2_range := _format_range_unified (op_j1 first) (op_j2 last_) in
  (lit "@@ -" ++ file1_range ++ lit " +" ++ file2_range ++ lit " @@" ++ lineterm)
    :: flat_map (hunk_lines a b) group.

(** [unified_diff(a, b, fromfile, tofile, fromfiledate, tofiledate, n,
    lineterm)]; the generator's items, in order. *)
Definition unified_diff (a b : list str)
           (fromfile tofile fromfiledate tofiledate : str) (n : Z)
           (lineterm : str) : list str :=
  match get_grouped_opcodes a b n with
  | [] => []
  | groups =>
      let fromdate := if truthy fromfiledate then TAB :: fromfiledate else [] in
      let todate := if truthy tofiledate then TAB :: tofiledate else [] in
      (lit "--- " ++ fromfile ++ fromdate ++ lineterm)
        :: (lit "+++ " ++ tofile ++ todate ++ lineterm)
        :: flat_map (hunk a b lineterm) groups
  end.

End DiffLib.

(** [generate_diff], lines 114-118; [old] is [None] on a first run. *)
Definition generate_diff (old : option str) (new : str) : str :=
  let old_lines :=
    match old with
    | Some o => if truthy o then splitlines o else []
    | None => []
    end in
  let new_lines := splitlines new in
  let d := DiffLib.unified_diff old_lines new_lines [] [] [] [] 3 [] in
  join [LF] d.

(** ** Vocabulary for the matcher's bounds *)

(** A match found in [a[alo:ahi]]: empty and parked at [alo], or inside
    the range. *)
Definition within (alo ahi : Z) (m : DiffLib.Match) : Prop :=
  (alo <= DiffLib.m_a m
   /\ ((DiffLib.m_size m = 0 /\ DiffLib.m_a m = alo)
       \/ (1 <= DiffLib.m_size m /\ DiffLib.m_a m + DiffLib.m_size m <= ahi)))%Z.

(** The passes the work list can still need: two per line of [a] in a
    range, and one for the range. *)
Definition queue_weight (queue : list (Z * Z * Z * Z)) : nat :=
  fold_right (fun q n => (2 * Z.to_nat (q.1.1.2 - q.1.1.1) + 1 + n)%nat) 0%nat queue.

(** ** The outside world *)

(** The fields [send_email] sets on its [EmailMessage]. *)
Record EmailMessage := mkEmail {
  msg_from : str;
  msg_to : str;
  msg_subject : str;
  msg_content : str
}.

(** What a run does to the outside, in order: an event is logged when the
    step has been carried out. *)
Inductive event : Type :=
  | HttpGet (url user_agent : str)
  | BrowserGoto (url user_agent : str)
  | SmtpConnected (host : str) (port : Z)
  | SmtpTlsStarted
  | SmtpLoggedIn (user password : str)
  | SmtpMessageSent (msg : EmailMessage)
  | FileWritten (path content : str)
  | Printed (line : str).

(** The snapshot file (absent, or its text) and the log of the run. *)
Record World := mkWorld {
  snapshot_file : option str;
  trace : list event
}.

(** The settings read from the environment when the module is loaded; the
    model starts after that, with every variable set. *)
Record Config := mkConfig {
  URL : str;
  SMTP_HOST : str;
  SMTP_PORT : Z;
  SMTP_USER : str;
  SMTP_PASS : str;
  TO_EMAIL : str;
  FROM_EMAIL : str
}.

(** The settings fixed in the source, lines 18-20 and 31. *)
Definition CSS_SELECTOR : str := [].
Definition SNAPSHOT_FILE : str := lit "./snapshot.txt".
Definition USER_AGENT : str := lit "PageWatcher/1.0".
Definition USE_JS : bool := false.

Inductive smtp_step := Connect | StartTls | Login | SendMessage.

Global Instance smtp_step_eq_dec : EqDecision smtp_step.
Proof. solve_decision. Defined.

(** The answers of the collaborators during one run: the HTTP client, the
    browser, the HTML parser, the mail server and the clock. The parser
    answers every page and every selector, and the mail server can refuse
    one step of the session; a parser that raises, a connection that
    cannot be opened and a failing QUIT at the end of the session are
    outside [Env]. *)
Record Env := mkEnv {
  http_get : result str;
  page_content : result str;
  soup_get_text : str -> str;
  soup_select_one : str -> str -> option str;
  smtp_fault : option smtp_step;
  ctime : str
}.

(** ** The monad of the program: state and exceptions *)

Definition M (A : Type) : Type := World -> result A * World.

Definition ret {A} (a : A) : M A := fun w => (Ok a, w).

Definition bind {A B} (m : M A) (f : A -> M B) : M B :=
  fun w =>
    match m w with
    | (Ok a, w') => f a w'
    | (Raise e, w') => (Raise e, w')
    end.

Definition raise {A} (e : exn) : M A := fun w => (Raise e, w).

Definition lift {A} (r : result A) : M A := fun w => (r, w).

Definition emit (e : event) : M unit :=
  fun w => (Ok tt, mkWorld (snapshot_file w) (trace w ++ [e])).

Notation "x <- m ;; k" := (bind m (fun x => k))
  (at level 100, m at next level, right associativity).
Notation "m ;; k" := (bind m (fun _ => k))
  (at level 100, right associativity).

(** ** The file *)

(** Reading in text mode turns \r\n and \r into \n. *)
Fixpoint universal_newlines (s : str) : str :=
  match s with
  | [] => []
  | c :: rest =>
      if c =? CR then
        LF :: match rest with
              | d :: rest' =>
                  if d =? LF then universal_newlines rest'
                  else universal_newlines rest
              | [] => []
              end
      else c :: universal_newlines rest
  end.

(** [Path(SNAPSHOT_FILE).exists()]. *)
Definition path_exists : M bool :=
  fun w => (Ok (bool_decide (is_Some (snapshot_file w))), w).

(** [p.read_text(encoding="utf-8")]. The file is held as the text it
    decodes to; a file that cannot be opened, or that is not valid UTF-8,
    is outside [World]. *)
Definition read_text : M str :=
  fun w =>
    match snapshot_file w with
    | Some data => (Ok (universal_newlines data), w)
    | None => (Raise FileNotFoundError, w)
    end.

(** [p.write_text(content, encoding="utf-8")] on a POSIX system, where \n
    is written as it is: the file is opened, which empties it, and then
    the encoded text is written. *)
Definition write_text (content : str) : M unit :=
  fun w =>
    match UTF8.encode content with
    | Some _ =>
        (Ok tt, mkWorld (Some content)
                        (trace w ++ [FileWritten SNAPSHOT_FILE content]))
    | None =>
        (Raise UnicodeEncodeError,
         mkWorld (Some []) (trace w ++ [FileWritten SNAPSHOT_FILE []]))
    end.

Definition print (line : str) : M unit := emit (Printed line).

(** ** The program *)

Section Program.

Variable cfg : Config.
Variable env : Env.

(** [fetch_content], lines 44-68. *)
Definition fetch_content : M str :=
  html <- (if USE_JS then
             emit (BrowserGoto (URL cfg) USER_AGENT) ;; lift (page_content env)
           else
             emit (HttpGet (URL cfg) USER_AGENT) ;; lift (http_get env)) ;;
  text <- (if truthy CSS_SELECTOR then
             match soup_select_one env CSS_SELECTOR html with
             | None =>
                 raise (RuntimeError (lit "Selector " ++ CSS_SELECTOR
                                      ++ lit " not found on page"))
             | Some el_text => ret el_text
             end
           else ret (soup_get_text env html)) ;;
  ret (normalize_text text).

(** [get_last_snapshot], lines 81-90. *)
Definition get_last_snapshot : M (option str * option str) :=
  present <- path_exists ;;
  if negb present then ret (None, None)
  else
    content <- read_text ;;
    h <- lift (make_hash content) ;;
    ret (Some content, Some h).

(** [save_snapshot], lines 92-98; the time stamp is not used. *)
Definition save_snapshot (content h : str) : M unit :=
  write_text content.

(** Lines 101-108 of [send_email]: the message, as the strings handed to
    the mail library. The argument [diff_text] is [None] by default. The
    library refuses a header value with a line break inside and a body
    that UTF-8 cannot encode; a message is not checked for that here. *)
Definition compose_email (subject body : str) (diff_text : option str)
  : EmailMessage :=
  let body_full :=
    match diff_text with
    | Some d =>
        if truthy d then body ++ [LF; LF] ++ lit "--- DIFF ---" ++ [LF] ++ d
        else body
    | None => body
    end in
  mkEmail (FROM_EMAIL cfg) (TO_EMAIL cfg) subject body_full.

(** A step of the mail session fails when the server says so. *)
Definition smtp_do (step : smtp_step) (e : event) : M unit :=
  if bool_decide (smtp_fault env = Some step) then raise SMTPException
  else emit e.

(** [send_email], lines 100-112. *)
Definition send_email (subject body : str) (diff_text : option str) : M unit :=
  let msg := compose_email subject body diff_text in
  smtp_do Connect (SmtpConnected (SMTP_HOST cfg) (SMTP_PORT cfg)) ;;
  smtp_do StartTls SmtpTlsStarted ;;
  smtp_do Login (SmtpLoggedIn (SMTP_USER cfg) (SMTP_PASS cfg)) ;;
  smtp_do SendMessage (SmtpMessageSent msg).

(** The subject and the summary that [main] mails, lines 129-134. *)
Definition change_subject : str :=
  lit "[PageWatcher] Change detected: " ++ URL cfg.

Definition change_body (h : str) : str :=
  lit "Change detected at " ++ ctime env ++ lit " for " ++ URL cfg ++ [LF]
  ++ lit "Selector: "
  ++ (if truthy CSS_SELECTOR then CSS_SELECTOR else lit "(whole page)") ++ [LF]
  ++ lit "Hash: " ++ h ++ [LF].

(** The branch of [main] for a change, lines 128-137. *)
Definition on_change (content h : str) (old_content : option str) : M unit :=
  let diff := generate_diff old_content content in
  let subject := change_subject in
  let body := change_body h in
  send_email subject body (Some diff) ;;
  save_snapshot content h ;;
  print (lit "Change detected -> email sent").

(** The other branch, line 139. *)
Definition on_no_change : M unit := print (lit "No change").

(** [main], lines 121-139. [old_hash != h] compares [None] or a string
    with a string. *)
Definition main : M unit :=
  content <- fetch_content ;;
  h <- lift (make_hash content) ;;
  old <- get_last_snapshot ;;
  let '(old_content, old_hash) := old in
  if negb (bool_decide (old_hash = Some h)) then on_change content h old_content
  else on_no_change.

End Program.

(** ** Vocabulary of the statements *)

(** The log of a mail session that fails at [fault], or runs to its end. *)
Definition smtp_log (cfg : Config) (msg : EmailMessage)
           (fault : option smtp_step) : list event :=
  let all := [SmtpConnected (SMTP_HOST cfg) (SMTP_PORT cfg); SmtpTlsStarted;
              SmtpLoggedIn (SMTP_USER cfg) (SMTP_PASS cfg); SmtpMessageSent msg] in
  match fault with
  | Some Connect => take 0 all
  | Some StartTls => take 1 all
  | Some Login => take 2 all
  | Some SendMessage => take 3 all
  | None => all
  end.

Definition is_file_write (e : event) : bool :=
  match e with FileWritten _ _ => true | _ => false end.

(** The world after some more events, the file untouched. *)
Definition logged (w : World) (evs : list event) : World :=
  mkWorld (snapshot_file w) (trace w ++ evs).

(** The last line a run printed, if printing was the last thing it did. *)
Definition reported (out : result unit * World) (line : str) : Prop :=
  last (trace out.2) = Some (Printed line).

(** A unified diff against nothing: the two file headers, one hunk header,
    and every line as an addition. *)
Definition additions_only (lines : list str) : list str :=
  match lines with
  | [] => []
  | _ :: _ =>
      [lit "--- "; lit "+++ ";
       lit "@@ -0,0 +"
         ++ DiffLib._format_range_unified 0 (Z.of_nat (length lines))
         ++ lit " @@"]
      ++ map (app (lit "+")) lines
  end.

(** ** Sample settings and worlds for the examples *)

Definition demo_cfg : Config :=
  mkConfig (lit "https://example.org/news") (lit "smtp.example.org") 587
           (lit "watcher") (lit "secret")
           (lit "ops@example.org") (lit "watcher@example.org").

(** A server that answers with [page], whose text is the page itself, and
    a mail session that fails at [fault]. *)
Definition demo_env (fault : option smtp_step) (page : str) : Env :=
  mkEnv (Ok page) (Ok page) (fun html => html) (fun _ _ => None) fault
        (lit "Tue Nov  3 12:00:00 2026").

Definition demo_page : str := lit "  a " ++ [CR; LF; LF] ++ lit "x  " ++ [LF].

Definition hash_ax : str :=
  lit "e51ab99a9ebc2d51f9434cac26245e24f6bcff98712a04834ede9287478f1b25".
Definition hash_ab : str :=
  lit "7e18f737311b2dc3b2f269dd78396b0351f14fb66efa879f768cb23181883c78".

Definition demo_world_ab : World := mkWorld (Some (nl_join ["a"; "b"])) [].
Definition demo_world_ax : World := mkWorld (Some (nl_join ["a"; "x"])) [].
Definition demo_world_new : World := mkWorld None [].

(** ** The normaliser as the specification words it

    "Split into lines, trim leading/trailing whitespace per line, discard
    lines that become empty, rejoin with a single newline separator", each
    step written on its own, by recursion on the text. Lines and
    whitespace are those of the string type. *)

Module Reference.

(** The lines of a text, built from its end: a boundary closes a line, any
    other character joins the line that follows it. *)
Fixpoint lines_of (s : str) : list str :=
  match s with
  | [] => []
  | c :: rest =>
      if is_linebreak c then
        match rest with
        | d :: _ => if (c =? CR) && (d =? LF) then lines_of rest else [] :: lines_of rest
        | [] => [[]]
        end
      else
        match lines_of rest with
        | [] => [[c]]
        | l :: ls => (c :: l) :: ls
        end
  end.

Fixpoint trim_start (s : str) : str :=
  match s with
  | [] => []
  | c :: rest => if is_space c then trim_start rest else c :: rest
  end.

Fixpoint trim_end (s : str) : str :=
  match s with
  | [] => []
  | c :: rest =>
      match trim_end rest with
      | [] => if is_space c then [] else [c]
      | t => c :: t
      end
  end.

Definition trim (s : str) : str := trim_end (trim_start s).

(** Trim each line and keep it unless it became empty. *)
Fixpoint kept_lines (ls : list str) : list str :=
  match ls with
  | [] => []
  | l :: rest =>
      match trim l with
      | [] => kept_lines rest
      | t => t :: kept_lines rest
      end
  end.

(** One newline between consecutive lines. *)
Fixpoint rejoin (ls : list str) : str :=
  match ls with
  | [] => []
  | l :: rest =>
      match rest with
      | [] => l
      | _ :: _ => l ++ LF :: rejoin rest
      end
  end.

Definition normalize_reference (text : str) : str :=
  rejoin (kept_lines (lines_of text)).

(** A line as the normaliser leaves it: not empty, without line boundary,
    already trimmed. *)
Definition clean_line (l : str) : Prop :=
  l <> [] /\ Forall nobreak l /\ trim l = l.

End Reference.


(** ** The program for any setting of its two switches

    [USE_JS] and [CSS_SELECTOR] are constants that the source asks to edit
    in place; here they are arguments, and the functions that read them
    are written again over them. *)

Section Switches.

Variable cfg : Config.
Variable env : Env.
Variable use_js : bool.
Variable selector : str.

(** [fetch_content], lines 44-68. *)
Definition fetch_content_with : M str :=
  html <- (if use_js then
             emit (BrowserGoto (URL cfg) USER_AGENT) ;; lift (page_content env)
           else
             emit (HttpGet (URL cfg) USER_AGENT) ;; lift (http_get env)) ;;
  text <- (if truthy selector then
             match soup_select_one env selector html with
             | None =>
                 raise (RuntimeError (lit "Selector " ++ selector
                                      ++ lit " not found on page"))
             | Some el_text => ret el_text
             end
           else ret (soup_get_text env html)) ;;
  ret (normalize_text text).

(** The summary of lines 130-134. *)
Definition change_body_with (h : str) : str :=
  lit "Change detected at " ++ ctime env ++ lit " for " ++ URL cfg ++ [LF]
  ++ lit "Selector: "
  ++ (if truthy selector then selector else lit "(whole page)") ++ [LF]
  ++ lit "Hash: " ++ h ++ [LF].

(** Lines 128-137. *)
Definition on_change_with (content h : str) (old_content : option str) : M unit :=
  let diff := generate_diff old_content content in
  let subject := change_subject cfg in
  let body := change_body_with h in
  send_email cfg env subject body (Some diff) ;;
  save_snapshot content h ;;
  print (lit "Change detected -> email sent").

(** [main], lines 121-139. *)
Definition main_with : M unit :=
  content <- fetch_content_with ;;
  h <- lift (make_hash content) ;;
  old <- get_last_snapshot ;;
  let '(old_content, old_hash) := old in
  if negb (bool_decide (old_hash = Some h))
  then on_change_with content h old_content
  else on_no_change.

End Switches.

(** ** More vocabulary *)

(** The network event of the fetch step. *)
Definition fetch_event (cfg : Config) (use_js : bool) : event :=
  if use_js then BrowserGoto (URL cfg) USER_AGENT
  else HttpGet (URL cfg) USER_AGENT.

Definition is_mail_sent (e : event) : bool :=
  match e with SmtpMessageSent _ => true | _ => false end.

Definition is_printed (e : event) : bool :=
  match e with Printed _ => true | _ => false end.

(** Code points that UTF-8 encodes: all but the surrogates. *)
Definition is_scalar (c : char) : bool :=
  (c <? 0xD800) || ((0xDFFF <? c) && (c <? 0x110000)).

(** The digits of a hexadecimal digest in lower case. *)
Definition is_hex_lower (c : char) : bool :=
  ((48 <=? c) && (c <=? 57)) || ((97 <=? c) && (c <=? 102)).


(** ** Vocabulary for the matcher's output *)

(** A range [a[alo:ahi]], [b[blo:bhi]] of the work list. *)
Definition range : Type := Z * Z * Z * Z.

Definition r_alo (r : range) : Z := r.1.1.1.
Definition r_ahi (r : range) : Z := r.1.1.2.
Definition r_blo (r : range) : Z := r.1.2.
Definition r_bhi (r : range) : Z := r.2.

(** The range a match covers. *)
Definition range_of (m : DiffLib.Match) : range :=
  (DiffLib.m_a m, DiffLib.m_a m + DiffLib.m_size m,
   DiffLib.m_b m, DiffLib.m_b m + DiffLib.m_size m)%Z.

Definition proper (r : range) : Prop :=
  (0 <= r_alo r <= r_ahi r /\ 0 <= r_blo r <= r_bhi r)%Z.

Definition inside (r outer : range) : Prop :=
  (r_alo outer <= r_alo r /\ r_ahi r <= r_ahi outer
   /\ r_blo outer <= r_blo r /\ r_bhi r <= r_bhi outer)%Z.

(** [r] ends, in both sequences, where [s] starts or earlier. *)
Definition before (r s : range) : Prop :=
  (r_ahi r <= r_alo s /\ r_bhi r <= r_blo s)%Z.

Definition apart (r s : range) : Prop := before r s \/ before s r.

Fixpoint all_apart (l : list range) : Prop :=
  match l with
  | [] => True
  | r :: l' => Forall (apart r) l' /\ all_apart l'
  end.

(** The lines a match pairs are equal. *)
Definition common (a b : list str) (m : DiffLib.Match) : Prop :=
  forall t, (0 <= t < DiffLib.m_size m)%Z ->
    exists x, DiffLib.a_at a (DiffLib.m_a m + t)%Z = Some x
              /\ DiffLib.b_at b (DiffLib.m_b m + t)%Z = Some x.

(** A match inside a range whose lines are equal. *)
Definition good_match (a b : list str) (r : range) (m : DiffLib.Match) : Prop :=
  inside (range_of m) r /\ (0 <= DiffLib.m_size m)%Z /\ common a b m.

(** An entry [j2len[j] = v] for row [i] of the scan over a range: a common
    run of [v] lines that ends at [(i, j)]. *)
Definition run_entry (a b : list str) (r : range) (i j v : Z) : Prop :=
  (1 <= v <= i - r_alo r + 1 /\ r_blo r <= j - v + 1 /\ j < r_bhi r)%Z
  /\ forall t, (0 <= t < v)%Z ->
       exists x, DiffLib.a_at a (i - t)%Z = Some x
                 /\ DiffLib.b_at b (j - t)%Z = Some x.

(** Blocks that follow one another from position [(i, j)] on. *)
Fixpoint ascending (i j : Z) (l : list DiffLib.Match) : Prop :=
  match l with
  | [] => True
  | x :: l' =>
      (i <= DiffLib.m_a x /\ j <= DiffLib.m_b x /\ 0 <= DiffLib.m_size x)%Z
      /\ ascending (DiffLib.m_a x + DiffLib.m_size x)
                   (DiffLib.m_b x + DiffLib.m_size x) l'
  end.

Fixpoint sorted_matches (l : list DiffLib.Match) : Prop :=
  match l with
  | [] => True
  | x :: l' =>
      match l' with
      | [] => True
      | y :: _ => DiffLib.match_leb x y = true
      end /\ sorted_matches l'
  end.

(** The range of the whole of [a] and [b], and a block found in it. *)
Definition top_range (a b : list str) : range :=
  (0, DiffLib.la a, 0, DiffLib.lb b)%Z.

Definition block_ok (a b : list str) (m : DiffLib.Match) : Prop :=
  good_match a b (top_range a b) m /\ (1 <= DiffLib.m_size m)%Z.

Definition range_ok (a b : list str) (r : range) : Prop :=
  proper r /\ inside r (top_range a b).

(** The lines of [a] and of [b] that an opcode spans. *)
Definition a_part (a : list str) (op : DiffLib.opcode) : list str :=
  DiffLib.slice a (DiffLib.op_i1 op) (DiffLib.op_i2 op).

Definition b_part (b : list str) (op : DiffLib.opcode) : list str :=
  DiffLib.slice b (DiffLib.op_j1 op) (DiffLib.op_j2 op).

(** An opcode that is not a run of equal lines. *)
Definition changes (op : DiffLib.opcode) : Prop :=
  DiffLib.is_equal (DiffLib.op_tag op) = false.

(** ** Vocabulary for the matcher on equal sequences *)

(** Where [elt] stands in [l], counting from [k]. *)
Fixpoint positions_from (k : Z) (elt : str) (l : list str) : list Z :=
  match l with
  | [] => []
  | y :: l' =>
      (if decide (y = elt) then [k] else []) ++ positions_from (k + 1) elt l'
  end.

Fixpoint increasing (l : list Z) : Prop :=
  match l with
  | [] => True
  | j :: l' => Forall (Z.lt j) l' /\ increasing l'
  end.

(** Line [r] of [s] is in the index that [__chain_b] builds for [s]. *)
Definition line_indexed (s : list str) (r : nat) : bool :=
  match s !! r with
  | Some x => bool_decide (is_Some (DiffLib.b2j s !! x))
  | None => false
  end.

(** The number of consecutive indexed lines that end at line [r]. *)
Fixpoint indexed_run (s : list str) (r : nat) : Z :=
  if line_indexed s r then
    (1 + match r with O => 0 | S r' => indexed_run s r' end)%Z
  else 0%Z.

Definition run_at (s : list str) (z : Z) : Z :=
  if (z <? 0)%Z then 0%Z else indexed_run s (Z.to_nat z).
(** * Properties *)

(** ** Strings and the normaliser *)

Example normalize_text_ex1 :
  normalize_text (lit "  a " ++ [CR; LF; LF; 9] ++ lit "b c" ++ [0x2028; 32; 12] ++ lit "d" ++ [LF])
  = lit "a" ++ [LF] ++ lit "b c" ++ [LF] ++ lit "d".
Proof. reflexivity. Qed.

Example splitlines_ex1 : splitlines [LF] = [[]].
Proof. reflexivity. Qed.
Example splitlines_ex2 : splitlines (lit "a" ++ [CR; LF] ++ lit "b" ++ [CR]) = [lit "a"; lit "b"].
Proof. reflexivity. Qed.
Example splitlines_ex3 : splitlines (lit "a" ++ [LF; CR] ++ lit "b") = [lit "a"; []; lit "b"].
Proof. reflexivity. Qed.

(** ** Hashing: the standard test vectors *)

Example make_hash_abc :
  make_hash (lit "abc")
  = Ok (lit "ba7816bf8f01cfea414140de5dae2223b00361a396177a9cb410ff61f20015ad").
Proof. vm_compute. reflexivity. Qed.

Example make_hash_empty :
  make_hash []
  = Ok (lit "e3b0c44298fc1c149afbf4c8996fb92427ae41e4649b934ca495991b7852b855").
Proof. vm_compute. reflexivity. Qed.

Example make_hash_two_blocks :
  make_hash (repeat 97 70)
  = Ok (lit "6bd5e5034855a11241f0dee8fc72850ffd9955b28347a86428b5fa19119f6ad0").
Proof. vm_compute. reflexivity. Qed.

Example make_hash_pad_55 :
  make_hash (repeat 97 55)
  = Ok (lit "9f4390f8d30c2dd92ec9f095b65e2b9ae9b0a925a5258e241c9f1e910f734318").
Proof. vm_compute. reflexivity. Qed.

Example make_hash_pad_56 :
  make_hash (repeat 97 56)
  = Ok (lit "b35439a4ac6f0948b6d6f9e3c6af0f5f590ce20f1bde7090ef7970686ec6738a").
Proof. vm_compute. reflexivity. Qed.

Example make_hash_unicode :
  make_hash [104; 0xE9; 0x20AC; 0x1F600]
  = Ok (lit "39d15ee696a6f5bd03a5220ddcac864c6f6c2833b3ae973bfa10e202056fd284").
Proof. vm_compute. reflexivity. Qed.

Example make_hash_surrogate : make_hash [97; 0xD800] = Raise UnicodeEncodeError.
Proof. reflexivity. Qed.

(** ** The normaliser against its reference *)

Section Normaliser.

Import Reference.

Lemma linebreak_is_space c : is_linebreak c = true -> is_space c = true.
Proof.
  unfold is_linebreak, is_space.
  rewrite !orb_true_iff, !andb_true_iff, !N.leb_le, !N.eqb_eq. lia.
Qed.

Lemma LF_is_linebreak : is_linebreak LF = true.
Proof. reflexivity. Qed.

(** *** Splitting *)

Lemma lines_of_cons c rest :
  lines_of (c :: rest) =
  if is_linebreak c then
    match rest with
    | d :: _ => if (c =? CR) && (d =? LF) then lines_of rest else [] :: lines_of rest
    | [] => [[]]
    end
  else
    match lines_of rest with
    | [] => [[c]]
    | l :: ls => (c :: l) :: ls
    end.
Proof. reflexivity. Qed.

Lemma splitlines_from_cons line c rest :
  splitlines_from line (c :: rest) =
  if is_linebreak c then
    line ::
      match rest with
      | d :: rest' =>
          if (c =? CR) && (d =? LF) then splitlines_from [] rest'
          else splitlines_from [] rest
      | [] => []
      end
  else splitlines_from (line ++ [c]) rest.
Proof. reflexivity. Qed.

Lemma list_match_id {A} (l : list A) :
  match l with [] => [] | x :: xs => x :: xs end = l.
Proof. now destruct l. Qed.

Lemma splitlines_from_lines_of s : forall line,
  splitlines_from line s =
  match lines_of s with
  | [] => if truthy line then [line] else []
  | l :: ls => (line ++ l) :: ls
  end.
Proof.
  remember (length s) as n eqn:Hn.
  revert s Hn. induction (lt_wf n) as [n _ IH]. intros s Hn line.
  assert (IH' : forall s' : str, (length s' < length s)%nat ->
            splitlines_from [] s' = lines_of s').
  { intros s' Hlt. rewrite (IH (length s')) with (s := s') by (subst; auto).
    apply list_match_id. }
  destruct s as [|c rest]; [reflexivity|].
  rewrite splitlines_from_cons, lines_of_cons.
  destruct (is_linebreak c) eqn:Hc.
  - destruct rest as [|d rest'].
    + now rewrite app_nil_r.
    + destruct ((c =? CR) && (d =? LF)) eqn:Hcrlf.
      * apply andb_true_iff in Hcrlf as [_ Hd]. apply N.eqb_eq in Hd. subst d.
        rewrite IH' by (simpl; lia).
        rewrite lines_of_cons, LF_is_linebreak.
        destruct rest' as [|d' rest'']; simpl (LF =? CR); cbv iota;
          rewrite ?andb_false_l, app_nil_r; reflexivity.
      * rewrite IH' by (simpl; lia). now rewrite app_nil_r.
  - rewrite (IH (length rest)) with (s := rest) by (subst; simpl; auto).
    destruct (lines_of rest) as [|l ls].
    + now destruct line.
    + now rewrite <- app_assoc.
Qed.

Lemma splitlines_lines_of s : splitlines s = lines_of s.
Proof.
  unfold splitlines. rewrite splitlines_from_lines_of.
  now destruct (lines_of s).
Qed.

(** *** Trimming *)

Lemma lstrip_trim_start s : lstrip s = trim_start s.
Proof. induction s as [|c r IH]; simpl; [|destruct (is_space c)]; auto. Qed.

Lemma lstrip_snoc s c :
  lstrip (s ++ [c]) =
  match lstrip s with
  | [] => if is_space c then [] else [c]
  | t => t ++ [c]
  end.
Proof.
  induction s as [|d r IH]; simpl; [now destruct (is_space c)|].
  now destruct (is_space d).
Qed.

Lemma rstrip_trim_end s : rstrip s = trim_end s.
Proof.
  unfold rstrip. induction s as [|c r IH]; [reflexivity|].
  simpl. rewrite lstrip_snoc, <- IH.
  destruct (lstrip (rev r)) as [|x t] eqn:E; simpl.
  - now destruct (is_space c).
  - rewrite rev_app_distr. simpl.
    destruct (rev t ++ [x]) eqn:E'; [now destruct (rev t)|reflexivity].
Qed.

Lemma strip_trim s : strip s = trim s.
Proof. unfold strip, trim. now rewrite rstrip_trim_end, lstrip_trim_start. Qed.

(** *** Joining and filtering *)

Lemma join_rejoin ls : join [LF] ls = rejoin ls.
Proof.
  induction ls as [|l rest IH]; [reflexivity|].
  destruct rest as [|l' rest']; [reflexivity|].
  change (join [LF] (l :: l' :: rest')) with (l ++ [LF] ++ join [LF] (l' :: rest')).
  now rewrite IH.
Qed.

Lemma filter_map_kept ls :
  List.filter truthy (map strip ls) = kept_lines ls.
Proof.
  induction ls as [|l rest IH]; [reflexivity|].
  simpl. rewrite strip_trim, IH. now destruct (trim l).
Qed.

(** *** Lines that normalising leaves alone *)

Lemma lines_of_nobreak s : Forall (Forall nobreak) (lines_of s).
Proof.
  induction s as [|c rest IH]; [constructor|].
  rewrite lines_of_cons. destruct (is_linebreak c) eqn:Hc.
  - destruct rest as [|d rest']; [repeat constructor|].
    destruct ((c =? CR) && (d =? LF)); [assumption|].
    constructor; [constructor | assumption].
  - destruct (lines_of rest) as [|l ls]; [repeat constructor; assumption|].
    inversion IH; subst. constructor; [constructor|]; assumption.
Qed.

Lemma trim_start_Forall (P : char -> Prop) s :
  Forall P s -> Forall P (trim_start s).
Proof.
  induction 1 as [|c r Hc Hr IH]; simpl; [constructor|].
  destruct (is_space c); [assumption | now constructor].
Qed.

Lemma trim_end_Forall (P : char -> Prop) s :
  Forall P s -> Forall P (trim_end s).
Proof.
  induction 1 as [|c r Hc Hr IH]; simpl; [constructor|].
  destruct (trim_end r).
  - destruct (is_space c); repeat constructor; assumption.
  - now constructor.
Qed.

Lemma trim_Forall (P : char -> Prop) s : Forall P s -> Forall P (trim s).
Proof. intros H. now apply trim_end_Forall, trim_start_Forall. Qed.

Lemma trim_start_head s :
  trim_start s = [] \/ exists c r, trim_start s = c :: r /\ is_space c = false.
Proof.
  induction s as [|c r IH]; simpl; [now left|].
  destruct (is_space c) eqn:Hc; [assumption|]. right. eauto.
Qed.

Lemma trim_end_head c r :
  trim_end (c :: r) = [] \/ exists t, trim_end (c :: r) = c :: t.
Proof.
  simpl. destruct (trim_end r); [destruct (is_space c)|]; eauto.
Qed.

Lemma trim_end_idem s : trim_end (trim_end s) = trim_end s.
Proof.
  induction s as [|c r IH]; [reflexivity|]. simpl.
  destruct (trim_end r) as [|x t] eqn:E.
  - destruct (is_space c) eqn:Hc; [reflexivity|]. simpl. now rewrite Hc.
  - change (trim_end (c :: x :: t)) with
      (match trim_end (x :: t) with
       | [] => if is_space c then [] else [c]
       | u => c :: u
       end).
    now rewrite IH.
Qed.

Lemma trim_idem s : trim (trim s) = trim s.
Proof.
  unfold trim.
  destruct (trim_start_head s) as [E | (c & r & E & Hc)]; rewrite E.
  - reflexivity.
  - destruct (trim_end_head c r) as [E' | (t & E')]; rewrite E'.
    + reflexivity.
    + assert (Hs : trim_start (c :: t) = c :: t) by (simpl; now rewrite Hc).
      rewrite Hs, <- E'. apply trim_end_idem.
Qed.

Lemma kept_lines_clean ls :
  Forall (Forall nobreak) ls -> Forall clean_line (kept_lines ls).
Proof.
  induction 1 as [|l rest Hl Hrest IH]; simpl; [constructor|].
  destruct (trim l) as [|x t] eqn:E; [assumption|].
  constructor; [|assumption]. repeat split.
  - discriminate.
  - rewrite <- E. now apply trim_Forall.
  - rewrite <- E. apply trim_idem.
Qed.

Lemma kept_lines_fixed ls : Forall clean_line ls -> kept_lines ls = ls.
Proof.
  induction 1 as [|l rest (Hne & _ & Ht) Hrest IH]; simpl; [reflexivity|].
  rewrite Ht, IH. now destruct l.
Qed.

Lemma lines_of_app_nobreak l s :
  Forall nobreak l ->
  lines_of (l ++ s) =
  match lines_of s with
  | [] => if truthy l then [l] else []
  | x :: xs => (l ++ x) :: xs
  end.
Proof.
  induction 1 as [|c r Hc Hr IH]; simpl app.
  - simpl. now destruct (lines_of s).
  - rewrite lines_of_cons, Hc, IH.
    destruct (lines_of s); [now destruct r|reflexivity].
Qed.

Lemma lines_of_LF s : lines_of (LF :: s) = [] :: lines_of s.
Proof. rewrite lines_of_cons. now destruct s. Qed.

Lemma lines_of_rejoin ls :
  Forall clean_line ls -> lines_of (rejoin ls) = ls.
Proof.
  induction 1 as [|l rest (Hne & Hl & _) Hrest IH]; [reflexivity|].
  simpl. destruct rest as [|l' rest'].
  - rewrite <- (app_nil_r l) at 1. rewrite lines_of_app_nobreak by assumption.
    simpl. now destruct l.
  - rewrite lines_of_app_nobreak by assumption.
    rewrite lines_of_LF, IH. now rewrite app_nil_r.
Qed.

Lemma normalize_reference_idem text :
  normalize_reference (normalize_reference text) = normalize_reference text.
Proof.
  unfold normalize_reference.
  pose proof (kept_lines_clean _ (lines_of_nobreak text)) as Hclean.
  now rewrite lines_of_rejoin, kept_lines_fixed.
Qed.

(** The normalised text has no carriage return. *)
Lemma rejoin_no_CR ls :
  Forall (Forall nobreak) ls -> Forall (fun c => c <> CR) (rejoin ls).
Proof.
  assert (Hnb : forall l, Forall nobreak l -> Forall (fun c => c <> CR) l).
  { intros l Hl. eapply Forall_impl; [exact Hl|].
    intros c Hc ->. discriminate Hc. }
  induction 1 as [|l rest Hl Hrest IH]; simpl; [constructor|].
  destruct rest as [|l' rest']; [now apply Hnb|].
  apply Forall_app. split; [now apply Hnb|]. constructor; [discriminate|exact IH].
Qed.

End Normaliser.

Lemma normalize_text_reference (text : str) :
  normalize_text text = Reference.normalize_reference text.
Proof.
  unfold normalize_text, Reference.normalize_reference.
  now rewrite filter_map_kept, join_rejoin, splitlines_lines_of.
Qed.

(** C7. [normalize_text] is the reference normaliser: split into lines,
    trim each line at both ends, drop the lines left empty, rejoin with
    one newline between lines. *)
Theorem normalize_text_refines_reference (text : str) :
  normalize_text text = Reference.normalize_reference text.
Proof. apply normalize_text_reference. Qed.

Lemma normalize_text_no_CR (text : str) :
  Forall (fun c => c <> CR) (normalize_text text).
Proof.
  rewrite normalize_text_reference. unfold Reference.normalize_reference.
  apply rejoin_no_CR.
  eapply Forall_impl; [apply kept_lines_clean, lines_of_nobreak|].
  now intros l (_ & Hl & _).
Qed.

(** C6. Normalising is idempotent: normalising a normalised text returns
    it unchanged. *)
Theorem normalize_text_idempotent (text : str) :
  normalize_text (normalize_text text) = normalize_text text.
Proof.
  rewrite !normalize_text_reference.
  apply normalize_reference_idem.
Qed.

Example sha256_constants :
  SHA256.H0 = [0x6a09e667; 0xbb67ae85; 0x3c6ef372; 0xa54ff53a;
               0x510e527f; 0x9b05688c; 0x1f83d9ab; 0x5be0cd19]
  /\ take 4 SHA256.K = [0x428a2f98; 0x71374491; 0xb5c0fbcf; 0xe9b5dba5]
  /\ last SHA256.K = Some 0xc67178f2
  /\ length SHA256.K = 64%nat.
Proof. repeat split. Qed.

(** ** The differ on small inputs, against the library's output *)

Example generate_diff_first_run :
  generate_diff None (nl_join ["a"; "b"])
  = nl_join ["--- "; "+++ "; "@@ -0,0 +1,2 @@"; "+a"; "+b"].
Proof. vm_compute. reflexivity. Qed.

Example generate_diff_one_line :
  generate_diff None (lit "a") = nl_join ["--- "; "+++ "; "@@ -0,0 +1 @@"; "+a"].
Proof. vm_compute. reflexivity. Qed.

Example generate_diff_same :
  generate_diff (Some (nl_join ["x"; "y"])) (nl_join ["x"; "y"]) = [].
Proof. vm_compute. reflexivity. Qed.

Example generate_diff_two_hunks :
  generate_diff (Some (nl_join ["a"; "b"; "c"; "d"; "e"; "f"; "g"; "h"; "i"; "j"; "k"; "l"]))
                (nl_join ["a"; "B"; "c"; "d"; "e"; "f"; "g"; "h"; "i"; "j"; "K"; "l"])
  = nl_join ["--- "; "+++ "; "@@ -1,5 +1,5 @@"; " a"; "-b"; "+B"; " c"; " d"; " e";
             "@@ -8,5 +8,5 @@"; " h"; " i"; " j"; "-k"; "+K"; " l"].
Proof. vm_compute. reflexivity. Qed.

Example generate_diff_shift :
  generate_diff (Some (nl_join ["a"; "b"; "c"; "d"; "e"; "f"; "g"; "h"; "i"]))
                (nl_join ["b"; "c"; "d"; "e"; "f"; "g"; "h"; "i"; "z"])
  = nl_join ["--- "; "+++ "; "@@ -1,4 +1,3 @@"; "-a"; " b"; " c"; " d";
             "@@ -7,3 +6,4 @@"; " g"; " h"; " i"; "+z"].
Proof. vm_compute. reflexivity. Qed.

Example generate_diff_repeats :
  generate_diff (Some (nl_join ["a"; "a"; "b"; "a"])) (nl_join ["a"; "b"; "a"; "a"; "c"])
  = nl_join ["--- "; "+++ "; "@@ -1,4 +1,5 @@"; "-a"; " a"; " b"; " a"; "+a"; "+c"].
Proof. vm_compute. reflexivity. Qed.

Example generate_diff_all_removed :
  generate_diff (Some (nl_join ["a"; "b"])) []
  = nl_join ["--- "; "+++ "; "@@ -1,2 +0,0 @@"; "-a"; "-b"].
Proof. vm_compute. reflexivity. Qed.

Example generate_diff_mixed :
  generate_diff (Some (nl_join ["one"; "two"; "three"; "four"]))
                (nl_join ["zero"; "one"; "three"; "four"; "five"])
  = nl_join ["--- "; "+++ "; "@@ -1,4 +1,5 @@"; "+zero"; " one"; "-two"; " three";
             " four"; "+five"].
Proof. vm_compute. reflexivity. Qed.

(** A line that fills more than 1% of 200 or more lines is not indexed. *)
Example matching_blocks_popular :
  DiffLib.get_matching_blocks (map lit ["p"; "q"; "p"; "p"; "s"])
    (repeat (lit "p") 100 ++ [lit "s"] ++ repeat (lit "p") 98 ++ map lit ["q"; "r"])
  = [DiffLib.mkMatch 0 198 2; DiffLib.mkMatch 5 201 0].
Proof. vm_compute. reflexivity. Qed.

Example matching_blocks_not_popular :
  DiffLib.get_matching_blocks (map lit ["p"; "q"; "p"; "p"; "s"])
    (repeat (lit "p") 100 ++ [lit "s"] ++ repeat (lit "p") 96 ++ map lit ["q"; "r"])
  = [DiffLib.mkMatch 0 0 1; DiffLib.mkMatch 2 98 3; DiffLib.mkMatch 5 199 0].
Proof. vm_compute. reflexivity. Qed.

(** ** The differ against an empty old side *)

Section EmptyOldSide.

Import DiffLib.

Implicit Types b : list str.

Lemma find_longest_match_nil b blo bhi :
  find_longest_match [] b 0 0 blo bhi = mkMatch 0 blo 0.
Proof. reflexivity. Qed.

Lemma get_matching_blocks_nil b : get_matching_blocks [] b = [mkMatch 0 (lb b) 0].
Proof. reflexivity. Qed.

Lemma get_opcodes_nil b :
  get_opcodes [] b = if (0 <? lb b)%Z then [Op Insert 0 0 0 (lb b)] else [].
Proof.
  unfold get_opcodes. rewrite get_matching_blocks_nil.
  unfold opcodes_from. change (la []) with 0%Z. simpl.
  destruct (0 <? lb b)%Z; reflexivity.
Qed.

Lemma get_grouped_opcodes_nil b :
  get_grouped_opcodes [] b 3 =
  if (0 <? lb b)%Z then [[Op Insert 0 0 0 (lb b)]] else [].
Proof.
  unfold get_grouped_opcodes. rewrite get_opcodes_nil.
  destruct (0 <? lb b)%Z; reflexivity.
Qed.

Lemma slice_all {A} (l : list A) : slice l 0 (Z.of_nat (length l)) = l.
Proof.
  unfold slice. rewrite Nat2Z.id. simpl. rewrite Nat.sub_0_r.
  apply firstn_all.
Qed.

Lemma unified_diff_nil b lineterm :
  unified_diff [] b [] [] [] [] 3 lineterm =
  match b with
  | [] => []
  | _ :: _ =>
      [lit "--- " ++ lineterm; lit "+++ " ++ lineterm;
       lit "@@ -0,0 +" ++ _format_range_unified 0 (lb b) ++ lit " @@" ++ lineterm]
      ++ map (app (lit "+")) b
  end.
Proof.
  unfold unified_diff. rewrite get_grouped_opcodes_nil.
  destruct b as [|l ls]; [reflexivity|].
  assert (Hlb : (0 <? lb (l :: ls))%Z = true).
  { apply Z.ltb_lt. unfold lb. rewrite length_cons. lia. }
  rewrite Hlb. cbv [truthy]. rewrite !app_nil_l.
  cbv [flat_map hunk hunk_lines head last default op_tag op_i1 op_i2 op_j1 op_j2 id].
  rewrite !app_nil_r. unfold lb at 2. rewrite slice_all.
  reflexivity.
Qed.

End EmptyOldSide.

Lemma generate_diff_no_old new :
  generate_diff None new = join [LF] (additions_only (splitlines new)).
Proof.
  unfold generate_diff. rewrite unified_diff_nil. unfold additions_only.
  destruct (splitlines new); [reflexivity|]. now rewrite !app_nil_r.
Qed.

Lemma additions_only_In lines line :
  In line lines -> In (lit "+" ++ line) (additions_only lines).
Proof.
  intros H. destruct lines as [|l ls]; [destruct H|].
  unfold additions_only. apply in_or_app. right.
  now apply (in_map (app (lit "+"))).
Qed.


(** C10. An empty old text is handled as an absent one: the old side is
    the empty sequence of lines, the two calls give the same diff, and
    that diff holds every line of the new text as an addition. *)
Theorem generate_diff_empty_old_as_none (new : str) :
  generate_diff (Some []) new = generate_diff None new
  /\ generate_diff (Some []) new
     = join [LF] (DiffLib.unified_diff [] (splitlines new) [] [] [] [] 3 [])
  /\ generate_diff (Some []) new = join [LF] (additions_only (splitlines new))
  /\ forall line, In line (splitlines new) ->
       In (lit "+" ++ line) (additions_only (splitlines new)).
Proof.
  assert (E : generate_diff (Some []) new = generate_diff None new) by reflexivity.
  split; [exact E|]. split; [reflexivity|]. split.
  - rewrite E. apply generate_diff_no_old.
  - intros line. apply additions_only_In.
Qed.

Lemma generate_diff_empty_old_as_none_witness :
  In (lit "x") (splitlines (nl_join ["a"; "x"]))
  /\ In (lit "+x") (additions_only (splitlines (nl_join ["a"; "x"])))
  /\ generate_diff (Some []) (nl_join ["a"; "x"])
     = nl_join ["--- "; "+++ "; "@@ -0,0 +1,2 @@"; "+a"; "+x"].
Proof.
  assert (Hin : In (lit "x") (splitlines (nl_join ["a"; "x"])))
    by (right; left; reflexivity).
  destruct (generate_diff_empty_old_as_none (nl_join ["a"; "x"]))
    as (_ & _ & Hdiff & Hadd).
  split; [exact Hin|]. split; [exact (Hadd (lit "x") Hin)|].
  rewrite Hdiff. reflexivity.
Defined.

(** ** The matcher's work list empties within its fuel *)

Section MatcherTerminates.

Import DiffLib.
Local Open Scope Z_scope.

Variables a b : list str.
Variables alo ahi blo bhi : Z.

Lemma scan_row_within i js : forall j2len new best,
  alo <= i < ahi ->
  map_Forall (fun _ v => 1 <= v <= i - alo) j2len ->
  map_Forall (fun _ v => 1 <= v <= i - alo + 1) new ->
  within alo ahi best ->
  map_Forall (fun _ v => 1 <= v <= i - alo + 1)
             (scan_row blo bhi i js j2len new best).1
  /\ within alo ahi (scan_row blo bhi i js j2len new best).2.
Proof.
  induction js as [|j js IH]; intros j2len new best Hi Hold Hnew Hbest.
  - simpl. auto.
  - simpl. destruct (j <? blo); [now apply IH|].
    destruct (bhi <=? j); [simpl; auto|].
    assert (Hk : 1 <= default 0 (j2len !! (j - 1)) + 1 <= i - alo + 1).
    { destruct (j2len !! (j - 1)) as [v|] eqn:E; simpl; [|lia].
      pose proof (map_Forall_lookup_1 _ _ _ _ Hold E) as Hv. simpl in Hv. lia. }
    apply IH; [assumption | assumption | |].
    + now apply map_Forall_insert_2.
    + destruct (m_size best <? default 0 (j2len !! (j - 1)) + 1); [|assumption].
      unfold within. simpl. lia.
Qed.

Lemma scan_rows_fold_within n : forall r (st : gmap Z Z * Match),
  alo <= r ->
  r + Z.of_nat n <= ahi ->
  map_Forall (fun _ v => 1 <= v <= r - alo) st.1 ->
  within alo ahi st.2 ->
  within alo ahi
    (fold_left
       (fun (st : gmap Z Z * Match) i =>
          let js := match a_at a i with
                    | Some elt => default [] (b2j b !! elt)
                    | None => []
                    end in
          scan_row blo bhi i js st.1 ∅ st.2)
       (seqZ r (Z.of_nat n)) st).2.
Proof.
  induction n as [|n IH]; intros r st Hr Hn Hmap Hbest.
  - simpl. assumption.
  - rewrite seqZ_cons by lia. simpl fold_left.
    replace (Z.pred (Z.of_nat (S n))) with (Z.of_nat n) by lia.
    set (js := match a_at a r with
               | Some elt => default [] (b2j b !! elt)
               | None => []
               end).
    destruct (scan_row_within r js st.1 ∅ st.2) as [Hmap' Hbest'];
      [lia | assumption | apply map_Forall_empty | assumption |].
    apply IH; [lia | lia | | assumption].
    replace (Z.succ r - alo) with (r - alo + 1) by lia. exact Hmap'.
Qed.

Lemma scan_rows_within : within alo ahi (scan_rows a b alo ahi blo bhi).
Proof.
  unfold scan_rows.
  assert (Hinit : within alo ahi (mkMatch alo blo 0)).
  { unfold within. simpl. lia. }
  destruct (Z_le_gt_dec (ahi - alo) 0) as [Hle|Hgt].
  - rewrite seqZ_nil by assumption. exact Hinit.
  - replace (ahi - alo) with (Z.of_nat (Z.to_nat (ahi - alo))) by lia.
    apply scan_rows_fold_within; simpl; [lia | lia | | exact Hinit].
    apply map_Forall_empty.
Qed.

Lemma extend_left_within junk fuel : forall m,
  within alo ahi m -> within alo ahi (extend_left a b alo blo junk fuel m).
Proof.
  induction fuel as [|fuel IH]; intros m Hm; [exact Hm|].
  simpl. destruct (alo <? m_a m) eqn:Ha; simpl; [|exact Hm].
  destruct ((blo <? m_b m) && _ && _); [|exact Hm].
  apply IH. apply Z.ltb_lt in Ha. unfold within in *. simpl. lia.
Qed.

Lemma extend_right_within junk fuel : forall m,
  within alo ahi m -> within alo ahi (extend_right a b ahi bhi junk fuel m).
Proof.
  induction fuel as [|fuel IH]; intros m Hm; [exact Hm|].
  simpl. destruct (m_a m + m_size m <? ahi) eqn:Ha; simpl; [|exact Hm].
  destruct ((m_b m + m_size m <? bhi) && _ && _); [|exact Hm].
  apply IH. apply Z.ltb_lt in Ha. unfold within in *. simpl. lia.
Qed.

Lemma find_longest_match_within :
  within alo ahi (find_longest_match a b alo ahi blo bhi).
Proof.
  unfold find_longest_match, grow.
  repeat first [apply extend_right_within | apply extend_left_within].
  apply scan_rows_within.
Qed.

End MatcherTerminates.

Lemma matching_loop_nil a b fuel blocks :
  DiffLib.matching_loop a b fuel [] blocks = blocks.
Proof. now destruct fuel. Qed.

Lemma matching_loop_converges a b fuel : forall queue blocks extra,
  (queue_weight queue <= fuel)%nat ->
  DiffLib.matching_loop a b (fuel + extra) queue blocks
  = DiffLib.matching_loop a b fuel queue blocks.
Proof.
  induction fuel as [|fuel IH]; intros queue blocks extra Hw.
  - destruct queue as [|q queue]; [now rewrite !matching_loop_nil|].
    simpl in Hw. lia.
  - destruct queue as [|[[[alo ahi] blo] bhi] queue]; [reflexivity|].
    simpl in Hw. change (S fuel + extra)%nat with (S (fuel + extra)).
    cbn [DiffLib.matching_loop].
    pose proof (find_longest_match_within a b alo ahi blo bhi) as Hm.
    set (x := DiffLib.find_longest_match a b alo ahi blo bhi) in *.
    destruct Hm as [Hlo [[Hz _]|[Hk Hhi]]].
    + rewrite Hz. simpl. apply IH. lia.
    + destruct (DiffLib.m_size x =? 0)%Z eqn:Hk0; [apply IH; lia|].
      apply IH.
      destruct ((alo <? DiffLib.m_a x) && (blo <? DiffLib.m_b x))%Z,
               ((DiffLib.m_a x + DiffLib.m_size x <? ahi)
                && (DiffLib.m_b x + DiffLib.m_size x <? bhi))%Z;
        simpl; lia.
Qed.

(** The fuel of [get_matching_blocks] is enough: more fuel gives the same
    blocks, so the loop has emptied its work list. *)
Lemma matching_fuel_enough a b extra :
  DiffLib.matching_loop a b (DiffLib.matching_fuel a + extra)
    [(0, DiffLib.la a, 0, DiffLib.lb b)%Z] []
  = DiffLib.matching_loop a b (DiffLib.matching_fuel a)
      [(0, DiffLib.la a, 0, DiffLib.lb b)%Z] [].
Proof.
  apply matching_loop_converges.
  unfold DiffLib.matching_fuel, DiffLib.la. simpl. lia.
Qed.

(** The same for the loops that grow a match, and for the cutting of a
    message into blocks. *)
Lemma extend_left_converges a b alo blo junk fuel : forall m extra,
  (Z.to_nat (DiffLib.m_a m - alo) <= fuel)%nat ->
  DiffLib.extend_left a b alo blo junk (fuel + extra) m
  = DiffLib.extend_left a b alo blo junk fuel m.
Proof.
  induction fuel as [|fuel IH]; intros m extra Hf.
  - destruct extra; [reflexivity|]. simpl.
    destruct (alo <? DiffLib.m_a m)%Z eqn:E; [|reflexivity].
    apply Z.ltb_lt in E. lia.
  - simpl.
    destruct ((alo <? DiffLib.m_a m)%Z && _ && _ && _) eqn:E; [|reflexivity].
    apply IH. simpl.
    rewrite !andb_true_iff in E. destruct E as [[[E _] _] _].
    apply Z.ltb_lt in E. lia.
Qed.

Lemma extend_right_converges a b ahi bhi junk fuel : forall m extra,
  (Z.to_nat (ahi - (DiffLib.m_a m + DiffLib.m_size m)) <= fuel)%nat ->
  DiffLib.extend_right a b ahi bhi junk (fuel + extra) m
  = DiffLib.extend_right a b ahi bhi junk fuel m.
Proof.
  induction fuel as [|fuel IH]; intros m extra Hf.
  - destruct extra; [reflexivity|]. simpl.
    destruct (DiffLib.m_a m + DiffLib.m_size m <? ahi)%Z eqn:E; [|reflexivity].
    apply Z.ltb_lt in E. lia.
  - simpl.
    destruct ((DiffLib.m_a m + DiffLib.m_size m <? ahi)%Z && _ && _ && _) eqn:E;
      [|reflexivity].
    apply IH. simpl.
    rewrite !andb_true_iff in E. destruct E as [[[E _] _] _].
    apply Z.ltb_lt in E. lia.
Qed.

Lemma chunks_concat {A} (n : nat) (fuel : nat) : forall l : list A,
  (0 < n)%nat -> (length l <= fuel)%nat ->
  concat (SHA256.chunks n fuel l) = l.
Proof.
  induction fuel as [|fuel IH]; intros l Hn Hl.
  - destruct l; [reflexivity | simpl in Hl; lia].
  - destruct l as [|x l']; [reflexivity|].
    cbn [SHA256.chunks concat]. rewrite IH.
    + apply take_drop.
    + exact Hn.
    + rewrite length_drop. simpl in *. lia.
Qed.

(** ** Runs of the program *)

Lemma universal_newlines_no_CR s :
  Forall (fun c => c <> CR) s -> universal_newlines s = s.
Proof.
  induction 1 as [|c r Hc Hr IH]; [reflexivity|].
  simpl. apply N.eqb_neq in Hc. rewrite Hc. now rewrite IH.
Qed.

Lemma make_hash_encodes s h :
  make_hash s = Ok h -> exists bs, UTF8.encode s = Some bs.
Proof. unfold make_hash. destruct (UTF8.encode s); [eauto | discriminate]. Qed.

Section Runs.

Variable cfg : Config.
Variable env : Env.

Lemma fetch_content_ok w html :
  http_get env = Ok html ->
  fetch_content cfg env w
  = (Ok (normalize_text (soup_get_text env html)),
     logged w [HttpGet (URL cfg) USER_AGENT]).
Proof.
  intros H. unfold fetch_content, bind, lift, emit, ret, logged. simpl.
  now rewrite H.
Qed.

Lemma get_last_snapshot_absent w :
  snapshot_file w = None -> get_last_snapshot w = (Ok (None, None), w).
Proof.
  intros H. unfold get_last_snapshot, bind, path_exists. now rewrite H.
Qed.

Lemma get_last_snapshot_present w data :
  snapshot_file w = Some data ->
  get_last_snapshot w
  = (match make_hash (universal_newlines data) with
     | Ok h => Ok (Some (universal_newlines data), Some h)
     | Raise e => Raise e
     end, w).
Proof.
  intros H. unfold get_last_snapshot, bind, path_exists, read_text, lift, ret.
  rewrite H. simpl. rewrite H. now destruct (make_hash (universal_newlines data)).
Qed.

(** Loading the snapshot reads the file and nothing else. *)
Lemma get_last_snapshot_logged w evs r w' :
  get_last_snapshot w = (r, w') ->
  w' = w /\ get_last_snapshot (logged w evs) = (r, logged w evs).
Proof.
  destruct (snapshot_file w) as [data|] eqn:E.
  - rewrite (get_last_snapshot_present w data E).
    rewrite (get_last_snapshot_present (logged w evs) data E).
    intros [= <- <-]. auto.
  - rewrite (get_last_snapshot_absent w E).
    rewrite (get_last_snapshot_absent (logged w evs) E).
    intros [= <- <-]. auto.
Qed.

Lemma send_email_run subject body diff_text w :
  send_email cfg env subject body diff_text w
  = (match smtp_fault env with None => Ok tt | Some _ => Raise SMTPException end,
     logged w (smtp_log cfg (compose_email cfg subject body diff_text)
                        (smtp_fault env))).
Proof.
  unfold send_email, smtp_do, bind, emit, raise, logged, smtp_log.
  destruct (smtp_fault env) as [[]|]; simpl;
    rewrite <- ?app_assoc, ?app_nil_r; destruct w; reflexivity.
Qed.

Lemma main_run w html h oc oh :
  http_get env = Ok html ->
  make_hash (normalize_text (soup_get_text env html)) = Ok h ->
  get_last_snapshot w = (Ok (oc, oh), w) ->
  main cfg env w
  = if negb (bool_decide (oh = Some h))
    then on_change cfg env (normalize_text (soup_get_text env html)) h oc
           (logged w [HttpGet (URL cfg) USER_AGENT])
    else on_no_change (logged w [HttpGet (URL cfg) USER_AGENT]).
Proof.
  intros Hget Hh Hold. unfold main.
  unfold bind at 1. rewrite (fetch_content_ok w html Hget).
  unfold bind at 1. unfold lift at 1. rewrite Hh.
  unfold bind at 1.
  destruct (get_last_snapshot_logged w [HttpGet (URL cfg) USER_AGENT] _ _ Hold)
    as [_ ->].
  now destruct (negb (bool_decide (oh = Some h))).
Qed.

Lemma on_change_run content h oc w bs :
  UTF8.encode content = Some bs ->
  on_change cfg env content h oc w
  = let msg := compose_email cfg (change_subject cfg) (change_body cfg env h)
                 (Some (generate_diff oc content)) in
    match smtp_fault env with
    | None =>
        (Ok tt,
         mkWorld (Some content)
           (trace w ++ smtp_log cfg msg None
              ++ [FileWritten SNAPSHOT_FILE content;
                  Printed (lit "Change detected -> email sent")]))
    | Some step => (Raise SMTPException, logged w (smtp_log cfg msg (Some step)))
    end.
Proof.
  intros Henc. unfold on_change. cbv zeta.
  unfold bind at 1. rewrite send_email_run.
  destruct (smtp_fault env) as [step|]; [reflexivity|].
  unfold bind, save_snapshot, write_text, print, emit, logged. simpl.
  rewrite Henc. simpl. now rewrite <- !app_assoc.
Qed.

Lemma main_load_fails w html h e :
  http_get env = Ok html ->
  make_hash (normalize_text (soup_get_text env html)) = Ok h ->
  get_last_snapshot w = (Raise e, w) ->
  main cfg env w = (Raise e, logged w [HttpGet (URL cfg) USER_AGENT]).
Proof.
  intros Hget Hh Hold. unfold main.
  unfold bind at 1. rewrite (fetch_content_ok w html Hget).
  unfold bind at 1. unfold lift at 1. rewrite Hh.
  unfold bind at 1.
  destruct (get_last_snapshot_logged w [HttpGet (URL cfg) USER_AGENT] _ _ Hold)
    as [_ ->].
  reflexivity.
Qed.

Lemma main_no_change w html stored h :
  http_get env = Ok html ->
  make_hash (normalize_text (soup_get_text env html)) = Ok h ->
  snapshot_file w = Some stored ->
  make_hash (universal_newlines stored) = Ok h ->
  main cfg env w
  = (Ok tt, logged w [HttpGet (URL cfg) USER_AGENT; Printed (lit "No change")]).
Proof.
  intros Hget Hh Hfile Hold.
  assert (Hsnap : get_last_snapshot w
                  = (Ok (Some (universal_newlines stored), Some h), w)).
  { rewrite (get_last_snapshot_present w stored Hfile). now rewrite Hold. }
  rewrite (main_run w html h _ _ Hget Hh Hsnap).
  rewrite bool_decide_eq_true_2 by reflexivity.
  unfold on_no_change, print, emit, logged. simpl. now rewrite <- app_assoc.
Qed.

Lemma main_change w html h oc oh :
  http_get env = Ok html ->
  make_hash (normalize_text (soup_get_text env html)) = Ok h ->
  get_last_snapshot w = (Ok (oc, oh), w) ->
  oh <> Some h ->
  main cfg env w
  = let content := normalize_text (soup_get_text env html) in
    let msg := compose_email cfg (change_subject cfg) (change_body cfg env h)
                 (Some (generate_diff oc content)) in
    match smtp_fault env with
    | None =>
        (Ok tt,
         mkWorld (Some content)
           (trace w ++ [HttpGet (URL cfg) USER_AGENT] ++ smtp_log cfg msg None
              ++ [FileWritten SNAPSHOT_FILE content;
                  Printed (lit "Change detected -> email sent")]))
    | Some step =>
        (Raise SMTPException,
         logged w ([HttpGet (URL cfg) USER_AGENT] ++ smtp_log cfg msg (Some step)))
    end.
Proof.
  intros Hget Hh Hsnap Hne.
  rewrite (main_run w html h _ _ Hget Hh Hsnap).
  rewrite bool_decide_eq_false_2 by exact Hne. cbn [negb].
  destruct (make_hash_encodes _ _ Hh) as [bs Hbs].
  rewrite (on_change_run _ h oc _ bs Hbs). cbv zeta.
  destruct (smtp_fault env); unfold logged; simpl; now rewrite <- ?app_assoc.
Qed.

Lemma smtp_log_no_write msg fault :
  Forall (fun ev => is_file_write ev = false) (smtp_log cfg msg fault).
Proof. destruct fault as [[]|]; repeat constructor. Qed.

End Runs.

Example demo_page_normalised : normalize_text demo_page = nl_join ["a"; "x"].
Proof. reflexivity. Qed.

Example hash_ax_ok : make_hash (nl_join ["a"; "x"]) = Ok hash_ax.
Proof. vm_compute. reflexivity. Qed.

Example hash_ab_ok : make_hash (nl_join ["a"; "b"]) = Ok hash_ab.
Proof. vm_compute. reflexivity. Qed.

Lemma last_logged w evs e : last (trace (logged w (evs ++ [e]))) = Some e.
Proof. unfold logged. simpl. rewrite app_assoc. apply last_snoc. Qed.

(** A run that found a change never ends on the line for no change. *)
Lemma on_change_not_reported_unchanged cfg env content h oc w0 bs :
  UTF8.encode content = Some bs ->
  ~ reported (on_change cfg env content h oc
                (logged w0 [HttpGet (URL cfg) USER_AGENT]))
      (lit "No change").
Proof.
  intros Henc. rewrite (on_change_run cfg env content h oc _ bs Henc).
  unfold reported. cbv zeta.
  destruct (smtp_fault env) as [[]|]; cbn [snd logged trace snapshot_file smtp_log take];
    rewrite <- ?app_assoc; rewrite !last_app; simpl; discriminate.
Qed.

(** C1. With a snapshot on file, the run reports no change exactly when
    the digest of the current normalised text equals the digest recomputed
    from the stored text: equal digests lead to the branch for no change,
    different digests (as for different texts that do not collide) to the
    branch for a change. *)
Theorem unchanged_iff_digests_equal
        (cfg : Config) (env : Env) (w : World) (html stored h h_old : str) :
  let content := normalize_text (soup_get_text env html) in
  let old := universal_newlines stored in
  let w1 := logged w [HttpGet (URL cfg) USER_AGENT] in
  http_get env = Ok html ->
  snapshot_file w = Some stored ->
  make_hash content = Ok h ->
  make_hash old = Ok h_old ->
  (h_old = h -> main cfg env w = on_no_change w1)
  /\ (h_old <> h -> main cfg env w = on_change cfg env content h (Some old) w1)
  /\ (old <> content -> (make_hash old = make_hash content -> old = content) ->
      main cfg env w = on_change cfg env content h (Some old) w1)
  /\ (reported (main cfg env w) (lit "No change") <-> h_old = h).
Proof.
  intros content old w1 Hget Hfile Hh Hold.
  assert (Hsnap : get_last_snapshot w = (Ok (Some old, Some h_old), w)).
  { rewrite (get_last_snapshot_present w stored Hfile). fold old. now rewrite Hold. }
  pose proof (main_run cfg env w html h _ _ Hget Hh Hsnap) as Hmain.
  fold content w1 in Hmain.
  assert (Heq : h_old = h -> main cfg env w = on_no_change w1).
  { intros ->. rewrite Hmain. now rewrite bool_decide_eq_true_2. }
  assert (Hne : h_old <> h ->
                main cfg env w = on_change cfg env content h (Some old) w1).
  { intros Hd. rewrite Hmain. rewrite bool_decide_eq_false_2; [reflexivity|].
    intros [= E]. now apply Hd. }
  split; [exact Heq|]. split; [exact Hne|]. split.
  - intros Hdiff Hinj. apply Hne. intros ->. apply Hdiff, Hinj. congruence.
  - split.
    + intros Hrep. destruct (decide (h_old = h)) as [E|E]; [exact E|].
      exfalso. rewrite (Hne E) in Hrep.
      destruct (make_hash_encodes _ _ Hh) as [bs Hbs].
      exact (on_change_not_reported_unchanged cfg env content h _ w bs Hbs Hrep).
    + intros E. rewrite (Heq E). unfold reported, on_no_change, print, emit, w1.
      simpl. apply last_snoc.
Qed.

Lemma unchanged_iff_digests_equal_witness :
  make_hash (normalize_text (soup_get_text (demo_env None demo_page) demo_page))
  = Ok hash_ax
  /\ make_hash (universal_newlines (nl_join ["a"; "b"])) = Ok hash_ab
  /\ main demo_cfg (demo_env None demo_page) demo_world_ab
     = on_change demo_cfg (demo_env None demo_page) (nl_join ["a"; "x"]) hash_ax
         (Some (nl_join ["a"; "b"]))
         (logged demo_world_ab [HttpGet (URL demo_cfg) USER_AGENT]).
Proof.
  assert (H1 : make_hash (normalize_text
                 (soup_get_text (demo_env None demo_page) demo_page)) = Ok hash_ax)
    by (vm_compute; reflexivity).
  assert (H2 : make_hash (universal_newlines (nl_join ["a"; "b"])) = Ok hash_ab)
    by (vm_compute; reflexivity).
  split; [exact H1|]. split; [exact H2|].
  destruct (unchanged_iff_digests_equal demo_cfg (demo_env None demo_page)
              demo_world_ab demo_page (nl_join ["a"; "b"]) hash_ax hash_ab
              eq_refl eq_refl H1 H2) as (_ & Hne & _).
  apply Hne. discriminate.
Defined.



(** C3. When a change is detected and sending the mail raises, the run
    ends with that exception, [save_snapshot] is not executed (the run logs
    no write to the file) and the snapshot file is as it was. *)
Theorem failed_notification_skips_save
        (cfg : Config) (env : Env) (w w2 : World) (html h : str)
        (oc oh : option str) (e : exn) :
  let content := normalize_text (soup_get_text env html) in
  http_get env = Ok html ->
  make_hash content = Ok h ->
  get_last_snapshot w = (Ok (oc, oh), w) ->
  oh <> Some h ->
  send_email cfg env (change_subject cfg) (change_body cfg env h)
    (Some (generate_diff oc content)) (logged w [HttpGet (URL cfg) USER_AGENT])
  = (Raise e, w2) ->
  main cfg env w = (Raise e, w2)
  /\ snapshot_file w2 = snapshot_file w
  /\ exists evs, trace w2 = trace w ++ evs
                 /\ Forall (fun ev => is_file_write ev = false) evs.
Proof.
  intros content Hget Hh Hsnap Hne Hsend.
  split.
  - rewrite (main_run cfg env w html h _ _ Hget Hh Hsnap).
    rewrite bool_decide_eq_false_2 by exact Hne. cbn [negb].
    unfold on_change. cbv zeta. unfold bind at 1. fold content.
    now rewrite Hsend.
  - rewrite send_email_run in Hsend. injection Hsend as _ <-.
    split; [reflexivity|].
    eexists. split.
    + unfold logged. simpl. rewrite <- app_assoc. reflexivity.
    + apply Forall_app. split; [repeat constructor | apply smtp_log_no_write].
Qed.

Lemma failed_notification_skips_save_witness :
  get_last_snapshot demo_world_ab
  = (Ok (Some (nl_join ["a"; "b"]), Some hash_ab), demo_world_ab)
  /\ Some hash_ab <> Some hash_ax
  /\ main demo_cfg (demo_env (Some Login) demo_page) demo_world_ab
     = (Raise SMTPException,
        mkWorld (Some (nl_join ["a"; "b"]))
          [HttpGet (URL demo_cfg) USER_AGENT;
           SmtpConnected (SMTP_HOST demo_cfg) (SMTP_PORT demo_cfg);
           SmtpTlsStarted]).
Proof.
  assert (H1 : make_hash (normalize_text
                 (soup_get_text (demo_env (Some Login) demo_page) demo_page))
               = Ok hash_ax)
    by (vm_compute; reflexivity).
  assert (H2 : get_last_snapshot demo_world_ab
               = (Ok (Some (nl_join ["a"; "b"]), Some hash_ab), demo_world_ab))
    by (vm_compute; reflexivity).
  assert (H3 : Some hash_ab <> Some hash_ax) by discriminate.
  split; [exact H2|]. split; [exact H3|].
  apply (failed_notification_skips_save demo_cfg (demo_env (Some Login) demo_page)
           demo_world_ab _ demo_page hash_ax _ _ SMTPException eq_refl H1 H2 H3).
  reflexivity.
Defined.

(** The stated form of C4 fails: with a mail server that refuses the
    login, a change is detected and the file keeps its old text. *)
Lemma save_regardless_of_notification_refuted :
  ~ (forall (cfg : Config) (env : Env) (w : World) (html h : str)
            (oc oh : option str),
        http_get env = Ok html ->
        make_hash (normalize_text (soup_get_text env html)) = Ok h ->
        get_last_snapshot w = (Ok (oc, oh), w) ->
        oh <> Some h ->
        snapshot_file (main cfg env w).2
        = Some (normalize_text (soup_get_text env html))).
Proof.
  intros claim.
  assert (H1 : make_hash (normalize_text
                 (soup_get_text (demo_env (Some Login) demo_page) demo_page))
               = Ok hash_ax)
    by (vm_compute; reflexivity).
  assert (H2 : get_last_snapshot demo_world_ab
               = (Ok (Some (nl_join ["a"; "b"]), Some hash_ab), demo_world_ab))
    by (vm_compute; reflexivity).
  assert (H3 : Some hash_ab <> Some hash_ax) by discriminate.
  specialize (claim demo_cfg (demo_env (Some Login) demo_page) demo_world_ab
                demo_page hash_ax _ _ eq_refl H1 H2 H3).
  rewrite (main_change demo_cfg (demo_env (Some Login) demo_page) demo_world_ab
             demo_page hash_ax _ _ eq_refl H1 H2 H3) in claim.
  vm_compute in claim. discriminate claim.
Qed.

Example failed_login_keeps_old_snapshot :
  snapshot_file (main demo_cfg (demo_env (Some Login) demo_page) demo_world_ab).2
  = Some (nl_join ["a"; "b"]).
Proof. vm_compute. reflexivity. Qed.

(** C4, amended. The snapshot is written after the mail has been sent: in
    a run that detects a change and whose mail session succeeds, the file
    is overwritten with the new normalised text and the run ends on the
    line for a detected change; in a run whose mail session fails, the file
    is not written. *)
Theorem snapshot_saved_after_notification
        (cfg : Config) (env : Env) (w : World) (html h : str)
        (oc oh : option str) :
  let content := normalize_text (soup_get_text env html) in
  let msg := compose_email cfg (change_subject cfg) (change_body cfg env h)
               (Some (generate_diff oc content)) in
  http_get env = Ok html ->
  make_hash content = Ok h ->
  get_last_snapshot w = (Ok (oc, oh), w) ->
  oh <> Some h ->
  (smtp_fault env = None ->
   main cfg env w
   = (Ok tt,
      mkWorld (Some content)
        (trace w ++ [HttpGet (URL cfg) USER_AGENT] ++ smtp_log cfg msg None
           ++ [FileWritten SNAPSHOT_FILE content;
               Printed (lit "Change detected -> email sent")])))
  /\ (forall step, smtp_fault env = Some step ->
      main cfg env w
      = (Raise SMTPException,
         logged w ([HttpGet (URL cfg) USER_AGENT]
                   ++ smtp_log cfg msg (Some step)))).
Proof.
  intros content msg Hget Hh Hsnap Hne.
  pose proof (main_change cfg env w html h oc oh Hget Hh Hsnap Hne) as Hmain.
  cbv zeta in Hmain. fold content msg in Hmain.
  split.
  - intros Hok. now rewrite Hok in Hmain.
  - intros step Hko. now rewrite Hko in Hmain.
Qed.

Lemma snapshot_saved_after_notification_witness :
  smtp_fault (demo_env None demo_page) = None
  /\ snapshot_file (main demo_cfg (demo_env None demo_page) demo_world_ab).2
     = Some (nl_join ["a"; "x"])
  /\ (main demo_cfg (demo_env None demo_page) demo_world_ab).1 = Ok tt.
Proof.
  assert (H1 : make_hash (normalize_text
                 (soup_get_text (demo_env None demo_page) demo_page)) = Ok hash_ax)
    by (vm_compute; reflexivity).
  assert (H2 : get_last_snapshot demo_world_ab
               = (Ok (Some (nl_join ["a"; "b"]), Some hash_ab), demo_world_ab))
    by (vm_compute; reflexivity).
  assert (H3 : Some hash_ab <> Some hash_ax) by discriminate.
  destruct (snapshot_saved_after_notification demo_cfg (demo_env None demo_page)
              demo_world_ab demo_page hash_ax _ _ eq_refl H1 H2 H3) as [Hok _].
  split; [reflexivity|]. rewrite (Hok eq_refl). split; reflexivity.
Defined.

(** A successful run leaves on file a text whose digest is the digest of
    the page it saw. *)
Lemma main_ok_snapshot cfg env w w1 html h :
  http_get env = Ok html ->
  make_hash (normalize_text (soup_get_text env html)) = Ok h ->
  main cfg env w = (Ok tt, w1) ->
  exists stored, snapshot_file w1 = Some stored
                 /\ make_hash (universal_newlines stored) = Ok h.
Proof.
  intros Hget Hh Hrun.
  set (content := normalize_text (soup_get_text env html)) in *.
  assert (Hsaved : exists stored, Some content = Some stored
                     /\ make_hash (universal_newlines stored) = Ok h).
  { exists content. split; [reflexivity|].
    now rewrite (universal_newlines_no_CR content (normalize_text_no_CR _)). }
  destruct (snapshot_file w) as [stored|] eqn:Hfile.
  - pose proof (get_last_snapshot_present w stored Hfile) as Hsnap.
    destruct (make_hash (universal_newlines stored)) as [h_old|e] eqn:Hold.
    + destruct (decide (h_old = h)) as [->|Hd].
      * rewrite (main_no_change cfg env w html stored h Hget Hh Hfile Hold) in Hrun.
        injection Hrun as <-. exists stored. auto.
      * assert (Hne : Some h_old <> Some h) by congruence.
        rewrite (main_change cfg env w html h _ _ Hget Hh Hsnap Hne) in Hrun.
        cbv zeta in Hrun. destruct (smtp_fault env); [discriminate|].
        injection Hrun as <-. exact Hsaved.
    + rewrite (main_load_fails cfg env w html h e Hget Hh Hsnap) in Hrun.
      discriminate.
  - pose proof (get_last_snapshot_absent w Hfile) as Hsnap.
    assert (Hne : @None str <> Some h) by discriminate.
    rewrite (main_change cfg env w html h _ _ Hget Hh Hsnap Hne) in Hrun.
    cbv zeta in Hrun. destruct (smtp_fault env); [discriminate|].
    injection Hrun as <-. exact Hsaved.
Qed.

(** C5. When the digests match, the run prints the line for no change and
    does nothing else: it sends no mail and does not write the snapshot
    file. Hence a second run over an unchanged page, after a run that
    succeeded, reports no change and leaves the file as it is. *)
Theorem no_change_does_nothing
        (cfg : Config) (env env2 : Env) (w : World) (html html2 h : str) :
  let content := normalize_text (soup_get_text env html) in
  http_get env = Ok html ->
  make_hash content = Ok h ->
  http_get env2 = Ok html2 ->
  normalize_text (soup_get_text env2 html2) = content ->
  (forall stored,
      snapshot_file w = Some stored ->
      make_hash (universal_newlines stored) = Ok h ->
      main cfg env w
      = (Ok tt, logged w [HttpGet (URL cfg) USER_AGENT; Printed (lit "No change")]))
  /\ (forall w1,
      main cfg env w = (Ok tt, w1) ->
      main cfg env2 w1
      = (Ok tt, logged w1 [HttpGet (URL cfg) USER_AGENT; Printed (lit "No change")])
      /\ snapshot_file (main cfg env2 w1).2 = snapshot_file w1).
Proof.
  intros content Hget Hh Hget2 Hsame. split.
  - intros stored Hfile Hold.
    exact (main_no_change cfg env w html stored h Hget Hh Hfile Hold).
  - intros w1 Hrun.
    destruct (main_ok_snapshot cfg env w w1 html h Hget Hh Hrun)
      as (stored & Hfile & Hold).
    assert (Hh2 : make_hash (normalize_text (soup_get_text env2 html2)) = Ok h)
      by now rewrite Hsame.
    rewrite (main_no_change cfg env2 w1 html2 stored h Hget2 Hh2 Hfile Hold).
    split; reflexivity.
Qed.

Lemma no_change_does_nothing_witness :
  main demo_cfg (demo_env None demo_page) demo_world_ax
  = (Ok tt,
     mkWorld (Some (nl_join ["a"; "x"]))
       [HttpGet (URL demo_cfg) USER_AGENT; Printed (lit "No change")]).
Proof.
  assert (H1 : make_hash (normalize_text
                 (soup_get_text (demo_env None demo_page) demo_page)) = Ok hash_ax)
    by (vm_compute; reflexivity).
  destruct (no_change_does_nothing demo_cfg (demo_env None demo_page)
              (demo_env None demo_page) demo_world_ax demo_page demo_page hash_ax
              eq_refl H1 eq_refl eq_refl) as [Hnoop _].
  apply (Hnoop (nl_join ["a"; "x"])); [reflexivity | exact H1].
Defined.

(** C9. The message of [send_email] carries the configured sender and
    recipient and the given subject. With a diff text that is not empty its
    body is the summary, a blank line, the heading --- DIFF --- on a line
    of its own, and the diff; without one it is the summary alone. Every
    call of [send_email] that returns has gone through the whole session
    and has sent this message. *)
Theorem send_email_message
        (cfg : Config) (env : Env) (w : World) (subject body d : str) :
  d <> [] ->
  let with_diff := compose_email cfg subject body (Some d) in
  msg_from with_diff = FROM_EMAIL cfg
  /\ msg_to with_diff = TO_EMAIL cfg
  /\ msg_subject with_diff = subject
  /\ msg_content with_diff = body ++ [LF; LF] ++ lit "--- DIFF ---" ++ [LF] ++ d
  /\ compose_email cfg subject body None
     = mkEmail (FROM_EMAIL cfg) (TO_EMAIL cfg) subject body
  /\ compose_email cfg subject body (Some [])
     = mkEmail (FROM_EMAIL cfg) (TO_EMAIL cfg) subject body
  /\ forall diff_text w',
       send_email cfg env subject body diff_text w = (Ok tt, w') ->
       w' = logged w [SmtpConnected (SMTP_HOST cfg) (SMTP_PORT cfg);
                      SmtpTlsStarted;
                      SmtpLoggedIn (SMTP_USER cfg) (SMTP_PASS cfg);
                      SmtpMessageSent (compose_email cfg subject body diff_text)].
Proof.
  intros Hd with_diff. subst with_diff. unfold compose_email.
  destruct d as [|c d']; [contradiction|]. simpl.
  repeat (split; [reflexivity|]).
  intros diff_text w'. rewrite send_email_run.
  destruct (smtp_fault env) as [step|]; [discriminate|].
  now intros [= <-].
Qed.

Lemma send_email_message_witness :
  lit "+a" <> []
  /\ (send_email demo_cfg (demo_env None demo_page) (lit "subject") (lit "summary")
        (Some (lit "+a")) demo_world_new).1 = Ok tt
  /\ (send_email demo_cfg (demo_env None demo_page) (lit "subject") (lit "summary")
        (Some (lit "+a")) demo_world_new).2
     = mkWorld None
         [SmtpConnected (lit "smtp.example.org") 587; SmtpTlsStarted;
          SmtpLoggedIn (lit "watcher") (lit "secret");
          SmtpMessageSent
            (mkEmail (lit "watcher@example.org") (lit "ops@example.org")
               (lit "subject")
               (lit "summary" ++ [LF; LF] ++ lit "--- DIFF ---" ++ [LF] ++ lit "+a"))].
Proof.
  assert (Hd : lit "+a" <> []) by discriminate.
  split; [exact Hd|]. split; [reflexivity|].
  destruct (send_email_message demo_cfg (demo_env None demo_page) demo_world_new
              (lit "subject") (lit "summary") (lit "+a") Hd)
    as (_ & _ & _ & _ & _ & _ & Hsend).
  exact (Hsend (Some (lit "+a"))
           (send_email demo_cfg (demo_env None demo_page) (lit "subject")
              (lit "summary") (Some (lit "+a")) demo_world_new).2 eq_refl).
Defined.

(** ** A whole run *)

Example universal_newlines_ex :
  universal_newlines (lit "a" ++ [CR; LF] ++ lit "b" ++ [CR] ++ lit "c" ++ [LF; CR] ++ lit "d")
  = nl_join ["a"; "b"; "c"; ""; "d"].
Proof. reflexivity. Qed.

Example main_detects_and_mails :
  main demo_cfg (demo_env None demo_page) demo_world_ab
  = (Ok tt,
     mkWorld (Some (nl_join ["a"; "x"]))
       [HttpGet (lit "https://example.org/news") (lit "PageWatcher/1.0");
        SmtpConnected (lit "smtp.example.org") 587;
        SmtpTlsStarted;
        SmtpLoggedIn (lit "watcher") (lit "secret");
        SmtpMessageSent
          (mkEmail (lit "watcher@example.org") (lit "ops@example.org")
             (lit "[PageWatcher] Change detected: https://example.org/news")
             (nl_join
                ["Change detected at Tue Nov  3 12:00:00 2026 for https://example.org/news";
                 "Selector: (whole page)";
                 "Hash: e51ab99a9ebc2d51f9434cac26245e24f6bcff98712a04834ede9287478f1b25";
                 ""; ""; "--- DIFF ---";
                 "--- "; "+++ "; "@@ -1,2 +1,2 @@"; " a"; "-b"; "+x"]));
        FileWritten (lit "./snapshot.txt") (nl_join ["a"; "x"]);
        Printed (lit "Change detected -> email sent")]).
Proof. vm_compute. reflexivity. Qed.

Example main_first_run_mail_fails :
  main demo_cfg (demo_env (Some Connect) demo_page) demo_world_new
  = (Raise SMTPException,
     mkWorld None [HttpGet (lit "https://example.org/news") (lit "PageWatcher/1.0")]).
Proof. vm_compute. reflexivity. Qed.

(** * Further properties *)

(** ** What the normaliser returns *)

Section NormaliserOutput.

Import Reference.

Lemma clean_line_strip l :
  clean_line l -> truthy l = true /\ strip l = l /\ Forall nobreak l.
Proof.
  intros (Hne & Hnb & Ht). rewrite strip_trim.
  split; [now destruct l | auto].
Qed.



Lemma trim_start_nil s : trim_start s = [] <-> Forall (fun c => is_space c = true) s.
Proof.
  induction s as [|c r IH]; simpl; [split; auto|].
  destruct (is_space c) eqn:Hc.
  - rewrite IH. split; [now constructor | now inversion 1].
  - split; [discriminate | inversion 1; congruence].
Qed.

Lemma trim_nil s : trim s = [] <-> Forall (fun c => is_space c = true) s.
Proof.
  rewrite <- trim_start_nil. unfold trim.
  destruct (trim_start_head s) as [E | (c & r & E & Hc)]; rewrite E.
  - split; reflexivity.
  - split; [|discriminate]. simpl.
    destruct (trim_end r); [rewrite Hc|]; discriminate.
Qed.

Lemma lines_of_chars (P : char -> Prop) s :
  (forall c, is_linebreak c = true -> P c) ->
  Forall (Forall P) (lines_of s) <-> Forall P s.
Proof.
  intros Hbreak. induction s as [|c rest IH]; [split; constructor|].
  rewrite lines_of_cons. destruct (is_linebreak c) eqn:Hc.
  - assert (HP : P c) by auto.
    destruct rest as [|d rest'].
    + split; repeat constructor; assumption.
    + destruct ((c =? CR) && (d =? LF)).
      * rewrite IH. split; [now constructor | now inversion 1].
      * split.
        -- inversion 1; subst. constructor; [assumption | now apply IH].
        -- inversion 1; subst. constructor; [constructor | now apply IH].
  - destruct (lines_of rest) as [|l ls].
    + split.
      * inversion 1 as [|? ? Hl _]; subst. inversion Hl; subst.
        constructor; [assumption | apply IH; constructor].
      * inversion 1; subst. repeat constructor; assumption.
    + split.
      * inversion 1 as [|? ? Hl Hls]; subst. inversion Hl; subst.
        constructor; [assumption|]. apply IH. now constructor.
      * inversion 1 as [|? ? Hc' Hrest]; subst. apply IH in Hrest.
        inversion Hrest; subst. constructor; [now constructor | assumption].
Qed.

Lemma kept_lines_nil ls :
  kept_lines ls = [] <-> Forall (Forall (fun c => is_space c = true)) ls.
Proof.
  induction ls as [|l rest IH]; simpl; [split; auto|].
  destruct (trim l) as [|x t] eqn:E.
  - rewrite IH. apply trim_nil in E. split; [now constructor | now inversion 1].
  - split; [discriminate|]. inversion 1 as [|? ? Hl _]; subst.
    apply trim_nil in Hl. congruence.
Qed.

Lemma rejoin_nil ls : Forall clean_line ls -> rejoin ls = [] -> ls = [].
Proof.
  destruct 1 as [|l rest (Hne & _) _]; [reflexivity|].
  simpl. destruct rest; [congruence|]. destruct l; [congruence | discriminate].
Qed.

End NormaliserOutput.

(** X1. Splitting the normalised text gives back the lines the normaliser
    kept: the stripped lines of the input that are not empty. Each of them
    is non-empty, has no whitespace at either end and no line boundary
    inside. *)
Theorem normalize_text_lines (text : str) :
  splitlines (normalize_text text)
  = List.filter truthy (map strip (splitlines text))
  /\ Forall (fun l => truthy l = true /\ strip l = l /\ Forall nobreak l)
            (splitlines (normalize_text text)).
Proof.
  pose proof (kept_lines_clean _ (lines_of_nobreak text)) as Hclean.
  assert (E : splitlines (normalize_text text)
              = Reference.kept_lines (Reference.lines_of text)).
  { rewrite normalize_text_reference, splitlines_lines_of.
    now apply lines_of_rejoin. }
  split.
  - now rewrite E, filter_map_kept, splitlines_lines_of.
  - rewrite E. eapply Forall_impl; [exact Hclean|].
    intros l Hl. now apply clean_line_strip.
Qed.

(** X2. The normalised text is empty exactly when the input holds nothing
    but whitespace (the empty input included). *)
Theorem normalize_text_empty_iff (text : str) :
  normalize_text text = [] <-> Forall (fun c => is_space c = true) text.
Proof.
  rewrite normalize_text_reference. unfold Reference.normalize_reference.
  rewrite <- (lines_of_chars _ text linebreak_is_space), <- kept_lines_nil.
  split.
  - apply rejoin_nil, kept_lines_clean, lines_of_nobreak.
  - now intros ->.
Qed.



(** ** The digest *)

Lemma encode_char_scalar c :
  is_scalar c = true <-> exists bs, UTF8.encode_char c = Some bs.
Proof.
  unfold is_scalar, UTF8.encode_char.
  destruct (N.ltb_spec c 0x80), (N.ltb_spec c 0x800), (N.ltb_spec c 0x10000),
    (N.ltb_spec c 0x110000), (N.ltb_spec c 0xD800), (N.ltb_spec 0xDFFF c),
    (N.leb_spec 0xD800 c), (N.leb_spec c 0xDFFF); simpl;
    try lia; split; eauto; try discriminate; intros [bs Hbs]; discriminate.
Qed.

Lemma encode_scalar s :
  Forall (fun c => is_scalar c = true) s <-> exists bs, UTF8.encode s = Some bs.
Proof.
  induction s as [|c rest IH]; simpl.
  - split; [eauto | constructor].
  - split.
    + inversion 1 as [|? ? Hc Hrest]; subst.
      apply encode_char_scalar in Hc as [bs ->]. apply IH in Hrest as [more ->].
      eauto.
    + intros [bs Hbs].
      destruct (UTF8.encode_char c) as [b1|] eqn:E1; [|discriminate].
      destruct (UTF8.encode rest) as [b2|] eqn:E2; [|discriminate].
      constructor; [apply encode_char_scalar | apply IH]; eauto.
Qed.

Lemma length_flat_map_const {A B} (f : A -> list B) (k : nat) l :
  (forall x, length (f x) = k) -> length (flat_map f l) = (k * length l)%nat.
Proof.
  intros Hf. induction l as [|x l IH]; simpl; [lia|].
  rewrite length_app, Hf, IH. lia.
Qed.

Lemma Forall_flat_map_in {A B} (Q : A -> Prop) (P : B -> Prop)
      (f : A -> list B) l :
  (forall x, Q x -> Forall P (f x)) -> Forall Q l -> Forall P (flat_map f l).
Proof.
  intros Hf. induction 1 as [|x l Hx Hl IH]; simpl; [constructor|].
  apply Forall_app. auto.
Qed.

Lemma length_be_bytes n x : length (SHA256.be_bytes n x) = n.
Proof. induction n; simpl; congruence. Qed.

Lemma be_bytes_octets n x : Forall (fun b => b < 256) (SHA256.be_bytes n x).
Proof.
  induction n; simpl; constructor; [|assumption].
  apply N.mod_lt. discriminate.
Qed.

Lemma length_compress h block :
  length h = 8%nat -> length (SHA256.compress h block) = 8%nat.
Proof.
  intros Hh. unfold SHA256.compress.
  rewrite length_map, length_combine. unfold SHA256.words_of. simpl. lia.
Qed.

Lemma length_fold_compress blocks : forall h,
  length h = 8%nat -> length (fold_left SHA256.compress blocks h) = 8%nat.
Proof.
  induction blocks as [|blk blocks IH]; intros h Hh; simpl; [assumption|].
  apply IH, length_compress, Hh.
Qed.

Lemma hex_digit_lower d : d < 16 -> is_hex_lower (SHA256.hex_digit d) = true.
Proof.
  intros Hd. unfold is_hex_lower, SHA256.hex_digit.
  destruct (N.ltb_spec d 10);
    rewrite orb_true_iff, !andb_true_iff, !N.leb_le; lia.
Qed.

(** X4. A digest is 64 characters long, each a decimal digit or a letter
    from a to f: the hexadecimal form of 32 octets, whatever the text. *)
Theorem make_hash_format (s h : str) :
  make_hash s = Ok h ->
  length h = 64%nat /\ Forall (fun c => is_hex_lower c = true) h.
Proof.
  unfold make_hash. destruct (UTF8.encode s) as [bs|]; [|discriminate].
  intros [= <-]. unfold SHA256.hexdigest, SHA256.digest. split.
  - rewrite (length_flat_map_const _ 2) by reflexivity.
    rewrite (length_flat_map_const _ 4) by (intros; apply length_be_bytes).
    now rewrite length_fold_compress.
  - apply (Forall_flat_map_in (fun b => b < 256)).
    + intros b Hoct.
      assert (Hhi : b / 16 < 16) by (apply N.Div0.div_lt_upper_bound; lia).
      assert (Hlo : b mod 16 < 16) by (apply N.mod_lt; discriminate).
      repeat constructor; now apply hex_digit_lower.
    + apply (Forall_flat_map_in (fun _ => True)).
      * intros wd _. apply be_bytes_octets.
      * apply Forall_forall. auto.
Qed.

Lemma make_hash_format_witness :
  make_hash (nl_join ["a"; "x"]) = Ok hash_ax
  /\ length hash_ax = 64%nat
  /\ Forall (fun c => is_hex_lower c = true) hash_ax.
Proof.
  assert (H : make_hash (nl_join ["a"; "x"]) = Ok hash_ax)
    by (vm_compute; reflexivity).
  split; [exact H|]. exact (make_hash_format _ _ H).
Defined.

Lemma make_hash_raise_kind s e : make_hash s = Raise e -> e = UnicodeEncodeError.
Proof. unfold make_hash. destruct (UTF8.encode s); [discriminate | congruence]. Qed.

(** X5. Hashing fails only on a text that UTF-8 cannot encode, and then
    with [UnicodeEncodeError]: it succeeds exactly when no character is a
    surrogate (or beyond the last code point). *)
Theorem make_hash_succeeds_iff (s : str) :
  ((exists h, make_hash s = Ok h) <-> Forall (fun c => is_scalar c = true) s)
  /\ (forall e, make_hash s = Raise e -> e = UnicodeEncodeError).
Proof.
  unfold make_hash. rewrite encode_scalar. split.
  - split.
    + intros [h Hh]. destruct (UTF8.encode s); [eauto | discriminate].
    + intros [bs ->]. eauto.
  - intros e. fold (make_hash s). apply make_hash_raise_kind.
Qed.

(** ** The snapshot store *)

(** X6. What [save_snapshot] writes, [get_last_snapshot] reads back: for a
    text without carriage return (as every normalised text is) that can be
    hashed, saving and then loading returns that very text with its digest,
    whatever was on file before and whatever digest was passed to the
    save. *)
Theorem save_then_load (content h h' : str) (w : World) :
  Forall (fun c => c <> CR) content ->
  make_hash content = Ok h ->
  (save_snapshot content h' ;; get_last_snapshot) w
  = (Ok (Some content, Some h),
     mkWorld (Some content) (trace w ++ [FileWritten SNAPSHOT_FILE content])).
Proof.
  intros Hcr Hh. destruct (make_hash_encodes _ _ Hh) as [bs Hbs].
  unfold bind at 1. unfold save_snapshot, write_text. rewrite Hbs.
  rewrite (get_last_snapshot_present
             (mkWorld (Some content)
                      (trace w ++ [FileWritten SNAPSHOT_FILE content]))
             content eq_refl).
  rewrite (universal_newlines_no_CR _ Hcr). now rewrite Hh.
Qed.

Lemma save_then_load_witness :
  Forall (fun c => c <> CR) (normalize_text demo_page)
  /\ (save_snapshot (normalize_text demo_page) [] ;; get_last_snapshot)
       demo_world_ab
     = (Ok (Some (nl_join ["a"; "x"]), Some hash_ax),
        mkWorld (Some (nl_join ["a"; "x"]))
          [FileWritten SNAPSHOT_FILE (nl_join ["a"; "x"])]).
Proof.
  assert (H : make_hash (normalize_text demo_page) = Ok hash_ax)
    by (vm_compute; reflexivity).
  split; [apply normalize_text_no_CR|].
  exact (save_then_load (normalize_text demo_page) hash_ax [] demo_world_ab
           (normalize_text_no_CR demo_page) H).
Defined.

Example save_then_load_carriage_return :
  (save_snapshot (lit "a" ++ [CR] ++ lit "b") [] ;; get_last_snapshot) demo_world_new
  = (Ok (Some (nl_join ["a"; "b"]), Some hash_ab),
     mkWorld (Some (lit "a" ++ [CR] ++ lit "b"))
       [FileWritten SNAPSHOT_FILE (lit "a" ++ [CR] ++ lit "b")]).
Proof. vm_compute. reflexivity. Qed.

(** X7. Loading the snapshot changes nothing, whatever comes of it, and
    what it returns is a consistent pair: either (None, None), when there
    is no file, or the text of the file as read together with the digest
    of exactly that text. *)
Theorem get_last_snapshot_consistent
        (w w' : World) (r : result (option str * option str)) :
  get_last_snapshot w = (r, w') ->
  w' = w
  /\ match r with
     | Ok (None, None) => snapshot_file w = None
     | Ok (Some content, Some h) =>
         make_hash content = Ok h
         /\ exists data, snapshot_file w = Some data
                         /\ content = universal_newlines data
     | Ok _ => False
     | Raise _ => True
     end.
Proof.
  destruct (snapshot_file w) as [data|] eqn:Hfile.
  - rewrite (get_last_snapshot_present w data Hfile).
    destruct (make_hash (universal_newlines data)) as [h|e] eqn:Hh;
      intros [= <- <-]; split; try reflexivity.
    split; [exact Hh | eauto].
  - rewrite (get_last_snapshot_absent w Hfile). intros [= <- <-]. auto.
Qed.

Lemma get_last_snapshot_consistent_witness :
  get_last_snapshot demo_world_ab
  = (Ok (Some (nl_join ["a"; "b"]), Some hash_ab), demo_world_ab)
  /\ make_hash (nl_join ["a"; "b"]) = Ok hash_ab.
Proof.
  assert (H : get_last_snapshot demo_world_ab
              = (Ok (Some (nl_join ["a"; "b"]), Some hash_ab), demo_world_ab))
    by (vm_compute; reflexivity).
  split; [exact H|].
  exact (proj1 (proj2 (get_last_snapshot_consistent _ _ _ H))).
Defined.

(** ** The mail session *)

(** X8. What a call of [send_email] has done, whatever comes of it, is
    a beginning of the session: the connection, the TLS upgrade, the
    login, the message, in that order. So the credentials go out only
    after the upgrade and the message only after the login, and a call
    that returns has done all four. The snapshot file is never touched. *)
Theorem send_email_session
        (cfg : Config) (env : Env) (subject body : str)
        (diff_text : option str) (w w' : World) (r : result unit) :
  send_email cfg env subject body diff_text w = (r, w') ->
  let session :=
    [SmtpConnected (SMTP_HOST cfg) (SMTP_PORT cfg); SmtpTlsStarted;
     SmtpLoggedIn (SMTP_USER cfg) (SMTP_PASS cfg);
     SmtpMessageSent (compose_email cfg subject body diff_text)] in
  snapshot_file w' = snapshot_file w
  /\ exists evs rest,
       trace w' = trace w ++ evs
       /\ session = evs ++ rest
       /\ (r = Ok tt -> rest = []).
Proof.
  rewrite send_email_run. intros [= <- <-]. cbv zeta.
  split; [reflexivity|].
  destruct (smtp_fault env) as [[]|]; simpl.
  - exists [], [SmtpConnected (SMTP_HOST cfg) (SMTP_PORT cfg); SmtpTlsStarted;
                SmtpLoggedIn (SMTP_USER cfg) (SMTP_PASS cfg);
                SmtpMessageSent (compose_email cfg subject body diff_text)].
    repeat split; discriminate.
  - exists [SmtpConnected (SMTP_HOST cfg) (SMTP_PORT cfg)],
           [SmtpTlsStarted; SmtpLoggedIn (SMTP_USER cfg) (SMTP_PASS cfg);
            SmtpMessageSent (compose_email cfg subject body diff_text)].
    repeat split; discriminate.
  - exists [SmtpConnected (SMTP_HOST cfg) (SMTP_PORT cfg); SmtpTlsStarted],
           [SmtpLoggedIn (SMTP_USER cfg) (SMTP_PASS cfg);
            SmtpMessageSent (compose_email cfg subject body diff_text)].
    repeat split; discriminate.
  - exists [SmtpConnected (SMTP_HOST cfg) (SMTP_PORT cfg); SmtpTlsStarted;
            SmtpLoggedIn (SMTP_USER cfg) (SMTP_PASS cfg)],
           [SmtpMessageSent (compose_email cfg subject body diff_text)].
    repeat split; discriminate.
  - exists [SmtpConnected (SMTP_HOST cfg) (SMTP_PORT cfg); SmtpTlsStarted;
            SmtpLoggedIn (SMTP_USER cfg) (SMTP_PASS cfg);
            SmtpMessageSent (compose_email cfg subject body diff_text)], [].
    repeat split.
Qed.

Lemma send_email_session_witness :
  send_email demo_cfg (demo_env (Some Login) demo_page) (lit "s") (lit "b") None
    demo_world_ab
  = (Raise SMTPException,
     mkWorld (Some (nl_join ["a"; "b"]))
       [SmtpConnected (lit "smtp.example.org") 587; SmtpTlsStarted])
  /\ snapshot_file
       (mkWorld (Some (nl_join ["a"; "b"]))
          [SmtpConnected (lit "smtp.example.org") 587; SmtpTlsStarted])
     = snapshot_file demo_world_ab.
Proof.
  assert (H : send_email demo_cfg (demo_env (Some Login) demo_page) (lit "s")
                (lit "b") None demo_world_ab
              = (Raise SMTPException,
                 mkWorld (Some (nl_join ["a"; "b"]))
                   [SmtpConnected (lit "smtp.example.org") 587; SmtpTlsStarted]))
    by reflexivity.
  split; [exact H|].
  exact (proj1 (send_email_session _ _ _ _ _ _ _ _ H)).
Defined.

(** ** The fetch step *)

Section Fetch.

Variable cfg : Config.
Variable env : Env.
Variable use_js : bool.
Variable selector : str.

Lemma fetch_content_with_run w :
  fetch_content_with cfg env use_js selector w
  = (match (if use_js then page_content env else http_get env) with
     | Raise e => Raise e
     | Ok html =>
         if truthy selector then
           match soup_select_one env selector html with
           | None => Raise (RuntimeError (lit "Selector " ++ selector
                                          ++ lit " not found on page"))
           | Some el_text => Ok (normalize_text el_text)
           end
         else Ok (normalize_text (soup_get_text env html))
     end,
     logged w [fetch_event cfg use_js]).
Proof.
  unfold fetch_content_with, fetch_event, bind, lift, emit, ret, raise, logged.
  destruct use_js; simpl.
  - destruct (page_content env) as [html|e]; [|reflexivity].
    destruct (truthy selector); [|reflexivity].
    now destruct (soup_select_one env selector html).
  - destruct (http_get env) as [html|e]; [|reflexivity].
    destruct (truthy selector); [|reflexivity].
    now destruct (soup_select_one env selector html).
Qed.

Lemma fetch_content_with_world w r w' :
  fetch_content_with cfg env use_js selector w = (r, w') ->
  w' = logged w [fetch_event cfg use_js].
Proof. rewrite fetch_content_with_run. now intros [= _ <-]. Qed.

Lemma main_with_fetch_raises w e w1 :
  fetch_content_with cfg env use_js selector w = (Raise e, w1) ->
  main_with cfg env use_js selector w = (Raise e, w1).
Proof. intros H. unfold main_with. unfold bind at 1. now rewrite H. Qed.

Lemma main_with_after_fetch w content w1 :
  fetch_content_with cfg env use_js selector w = (Ok content, w1) ->
  main_with cfg env use_js selector w
  = match make_hash content with
    | Raise e => (Raise e, w1)
    | Ok h =>
        match get_last_snapshot w1 with
        | (Raise e, _) => (Raise e, w1)
        | (Ok (oc, oh), _) =>
            if negb (bool_decide (oh = Some h))
            then on_change_with cfg env selector content h oc w1
            else on_no_change w1
        end
    end.
Proof.
  intros H. unfold main_with. unfold bind at 1. rewrite H.
  unfold bind at 1. unfold lift at 1.
  destruct (make_hash content) as [h|e]; [|reflexivity].
  unfold bind at 1.
  destruct (get_last_snapshot w1) as [r w2] eqn:Hsnap.
  destruct (get_last_snapshot_logged w1 [] _ _ Hsnap) as [-> _].
  destruct r as [[oc oh]|e]; [|reflexivity].
  now destruct (negb (bool_decide (oh = Some h))).
Qed.

Lemma on_change_with_run content h oc w bs :
  UTF8.encode content = Some bs ->
  on_change_with cfg env selector content h oc w
  = let msg := compose_email cfg (change_subject cfg)
                 (change_body_with cfg env selector h)
                 (Some (generate_diff oc content)) in
    match smtp_fault env with
    | None =>
        (Ok tt,
         mkWorld (Some content)
           (trace w ++ smtp_log cfg msg None
              ++ [FileWritten SNAPSHOT_FILE content;
                  Printed (lit "Change detected -> email sent")]))
    | Some step => (Raise SMTPException, logged w (smtp_log cfg msg (Some step)))
    end.
Proof.
  intros Henc. unfold on_change_with. cbv zeta.
  unfold bind at 1. rewrite send_email_run.
  destruct (smtp_fault env) as [step|]; [reflexivity|].
  unfold bind, save_snapshot, write_text, print, emit, logged. simpl.
  rewrite Henc. simpl. now rewrite <- !app_assoc.
Qed.

End Fetch.

Lemma fetch_content_as_with cfg env :
  fetch_content cfg env = fetch_content_with cfg env USE_JS CSS_SELECTOR.
Proof. reflexivity. Qed.

Lemma main_as_with cfg env : main cfg env = main_with cfg env USE_JS CSS_SELECTOR.
Proof. reflexivity. Qed.

(** X9. A selector that matches nothing stops the run. When a selector
    is set, the page has been fetched and the selector finds no element on
    it, the fetch step raises a [RuntimeError] that names the selector, and
    so does the whole run, having made the network call and nothing else:
    the snapshot file is left as it was and no mail session is opened. *)
Theorem fetch_content_selector_not_found
        (cfg : Config) (env : Env) (use_js : bool) (selector : str)
        (w : World) (html : str) :
  selector <> [] ->
  (if use_js then page_content env else http_get env) = Ok html ->
  soup_select_one env selector html = None ->
  let e := RuntimeError (lit "Selector " ++ selector ++ lit " not found on page") in
  fetch_content_with cfg env use_js selector w
  = (Raise e, logged w [fetch_event cfg use_js])
  /\ main_with cfg env use_js selector w
     = (Raise e, logged w [fetch_event cfg use_js]).
Proof.
  intros Hsel Hpage Hone e. subst e.
  assert (H : fetch_content_with cfg env use_js selector w
              = (Raise (RuntimeError (lit "Selector " ++ selector
                                      ++ lit " not found on page")),
                 logged w [fetch_event cfg use_js])).
  { rewrite fetch_content_with_run, Hpage.
    destruct selector as [|c sel]; [contradiction|].
    cbn [truthy]. now rewrite Hone. }
  split; [exact H | now apply main_with_fetch_raises].
Qed.

Lemma fetch_content_selector_not_found_witness :
  lit ".article" <> []
  /\ main_with demo_cfg (demo_env None demo_page) false (lit ".article")
       demo_world_ab
     = (Raise (RuntimeError (lit "Selector .article not found on page")),
        mkWorld (Some (nl_join ["a"; "b"])) [HttpGet (URL demo_cfg) USER_AGENT]).
Proof.
  assert (Hsel : lit ".article" <> []) by discriminate.
  split; [exact Hsel|].
  exact (proj2 (fetch_content_selector_not_found demo_cfg
                  (demo_env None demo_page) false (lit ".article")
                  demo_world_ab demo_page Hsel eq_refl eq_refl)).
Defined.

(** X10. What the fetch step returns is normalised text: the text of the
    selected element, or of the whole page when no selector is set, passed
    through the normaliser. Normalising it again changes nothing and it
    holds no carriage return. *)
Theorem fetch_content_result
        (cfg : Config) (env : Env) (use_js : bool) (selector : str)
        (w w' : World) (content : str) :
  fetch_content_with cfg env use_js selector w = (Ok content, w') ->
  w' = logged w [fetch_event cfg use_js]
  /\ normalize_text content = content
  /\ Forall (fun c => c <> CR) content
  /\ exists html text,
       (if use_js then page_content env else http_get env) = Ok html
       /\ (if truthy selector then soup_select_one env selector html = Some text
           else text = soup_get_text env html)
       /\ content = normalize_text text.
Proof.
  rewrite fetch_content_with_run.
  destruct (if use_js then page_content env else http_get env) as [html|e0];
    [|discriminate].
  assert (Hnorm : forall text,
             normalize_text (normalize_text text) = normalize_text text
             /\ Forall (fun c => c <> CR) (normalize_text text)).
  { intros text. split; [|apply normalize_text_no_CR].
    rewrite !normalize_text_reference. apply normalize_reference_idem. }
  destruct (truthy selector) eqn:Hsel.
  - destruct (soup_select_one env selector html) as [t|] eqn:Hone; [|discriminate].
    intros [= <- <-]. split; [reflexivity|].
    destruct (Hnorm t). repeat split; auto. exists html, t. auto.
  - intros [= <- <-]. split; [reflexivity|].
    destruct (Hnorm (soup_get_text env html)). repeat split; auto.
    exists html, (soup_get_text env html). auto.
Qed.

Lemma fetch_content_result_witness :
  fetch_content_with demo_cfg (demo_env None demo_page) false [] demo_world_new
  = (Ok (nl_join ["a"; "x"]),
     mkWorld None [HttpGet (URL demo_cfg) USER_AGENT])
  /\ normalize_text (nl_join ["a"; "x"]) = nl_join ["a"; "x"].
Proof.
  assert (H : fetch_content_with demo_cfg (demo_env None demo_page) false []
                demo_world_new
              = (Ok (nl_join ["a"; "x"]),
                 mkWorld None [HttpGet (URL demo_cfg) USER_AGENT]))
    by reflexivity.
  split; [exact H|].
  exact (proj1 (proj2 (fetch_content_result _ _ _ _ _ _ _ H))).
Defined.

(** ** Runs that fail early *)

(** X11. When the fetch step fails, by a network error or by a selector
    that matches nothing, the run ends with that exception having done
    nothing but the network call: the snapshot is not read or written, no
    mail session is opened and nothing is printed. *)
Theorem main_fetch_failure
        (cfg : Config) (env : Env) (use_js : bool) (selector : str)
        (w w1 : World) (e : exn) :
  fetch_content_with cfg env use_js selector w = (Raise e, w1) ->
  main_with cfg env use_js selector w = (Raise e, w1)
  /\ snapshot_file w1 = snapshot_file w
  /\ trace w1 = trace w ++ [fetch_event cfg use_js].
Proof.
  intros H. split; [now apply main_with_fetch_raises|].
  apply fetch_content_with_world in H as ->. split; reflexivity.
Qed.

Lemma main_fetch_failure_witness :
  fetch_content_with demo_cfg (demo_env None demo_page) false (lit "#main")
    demo_world_ab
  = (Raise (RuntimeError (lit "Selector #main not found on page")),
     mkWorld (Some (nl_join ["a"; "b"])) [HttpGet (URL demo_cfg) USER_AGENT])
  /\ main_with demo_cfg (demo_env None demo_page) false (lit "#main") demo_world_ab
     = (Raise (RuntimeError (lit "Selector #main not found on page")),
        mkWorld (Some (nl_join ["a"; "b"])) [HttpGet (URL demo_cfg) USER_AGENT]).
Proof.
  assert (H : fetch_content_with demo_cfg (demo_env None demo_page) false
                (lit "#main") demo_world_ab
              = (Raise (RuntimeError (lit "Selector #main not found on page")),
                 mkWorld (Some (nl_join ["a"; "b"]))
                   [HttpGet (URL demo_cfg) USER_AGENT]))
    by reflexivity.
  split; [exact H|].
  exact (proj1 (main_fetch_failure _ _ _ _ _ _ _ H)).
Defined.

(** X12. When the text of the page cannot be encoded as UTF-8, the run
    ends with [UnicodeEncodeError] right after the fetch: the snapshot
    file is left alone, no mail is sent, nothing is printed. *)
Theorem main_unencodable_page
        (cfg : Config) (env : Env) (use_js : bool) (selector : str)
        (w w1 : World) (content : str) :
  fetch_content_with cfg env use_js selector w = (Ok content, w1) ->
  ~ Forall (fun c => is_scalar c = true) content ->
  main_with cfg env use_js selector w = (Raise UnicodeEncodeError, w1)
  /\ snapshot_file w1 = snapshot_file w
  /\ trace w1 = trace w ++ [fetch_event cfg use_js].
Proof.
  intros Hfetch Hbad.
  rewrite (main_with_after_fetch _ _ _ _ _ _ _ Hfetch).
  apply fetch_content_with_world in Hfetch as ->.
  destruct (make_hash content) as [h|e] eqn:Hh.
  - exfalso. apply Hbad. apply encode_scalar. now apply (make_hash_encodes _ h).
  - apply make_hash_raise_kind in Hh as ->. repeat split.
Qed.

Lemma main_unencodable_page_witness :
  ~ Forall (fun c => is_scalar c = true) [97; 0xD800]
  /\ main_with demo_cfg (demo_env None [97; 0xD800]) false [] demo_world_ab
     = (Raise UnicodeEncodeError,
        mkWorld (Some (nl_join ["a"; "b"])) [HttpGet (URL demo_cfg) USER_AGENT]).
Proof.
  assert (Hbad : ~ Forall (fun c => is_scalar c = true) [97; 0xD800]).
  { intros H. inversion H as [|? ? _ H']; subst.
    inversion H' as [|? ? Hs _]; subst. discriminate Hs. }
  split; [exact Hbad|].
  refine (proj1 (main_unencodable_page demo_cfg (demo_env None [97; 0xD800])
                   false [] demo_world_ab _ [97; 0xD800] _ Hbad)).
  reflexivity.
Defined.

(** ** What any run does *)

(** The four shapes of a run, after its network call. *)
Lemma main_with_shape cfg env use_js selector w :
  exists r file evs,
    main_with cfg env use_js selector w
    = (r, mkWorld file (trace w ++ fetch_event cfg use_js :: evs))
    /\ ((exists e, r = Raise e /\ file = snapshot_file w /\ evs = [])
        \/ (r = Ok tt /\ file = snapshot_file w
            /\ evs = [Printed (lit "No change")])
        \/ (exists msg step,
              r = Raise SMTPException /\ file = snapshot_file w
              /\ evs = smtp_log cfg msg (Some step))
        \/ (exists msg content,
              r = Ok tt /\ file = Some content
              /\ evs = smtp_log cfg msg None
                       ++ [FileWritten SNAPSHOT_FILE content;
                           Printed (lit "Change detected -> email sent")])).
Proof.
  destruct (fetch_content_with cfg env use_js selector w) as [[content|e] w1]
    eqn:Hfetch.
  - rewrite (main_with_after_fetch _ _ _ _ _ _ _ Hfetch).
    apply fetch_content_with_world in Hfetch as ->.
    destruct (make_hash content) as [h|e] eqn:Hh.
    + destruct (get_last_snapshot _) as [r w2] eqn:Hsnap.
      destruct r as [[oc oh]|e].
      * destruct (negb (bool_decide (oh = Some h))).
        -- destruct (make_hash_encodes _ _ Hh) as [bs Hbs].
           rewrite (on_change_with_run _ _ _ _ h oc _ bs Hbs). cbv zeta.
           destruct (smtp_fault env) as [step|].
           ++ do 3 eexists. split.
              ** unfold logged. simpl. rewrite <- app_assoc. reflexivity.
              ** right. right. left.
                 exists (compose_email cfg (change_subject cfg)
                           (change_body_with cfg env selector h)
                           (Some (generate_diff oc content))), step.
                 auto.
           ++ do 3 eexists. split.
              ** unfold logged. simpl. rewrite <- app_assoc. reflexivity.
              ** right. right. right.
                 exists (compose_email cfg (change_subject cfg)
                           (change_body_with cfg env selector h)
                           (Some (generate_diff oc content))), content.
                 auto.
        -- do 3 eexists. split.
           ++ unfold on_no_change, print, emit, logged. simpl.
              rewrite <- app_assoc. reflexivity.
           ++ right. left. auto.
      * do 3 eexists. split; [unfold logged; reflexivity|]. left. eauto.
    + do 3 eexists. split; [unfold logged; reflexivity|]. left. eauto.
  - rewrite (main_with_fetch_raises _ _ _ _ _ _ _ Hfetch).
    apply fetch_content_with_world in Hfetch as ->.
    do 3 eexists. split; [unfold logged; reflexivity|]. left. eauto.
Qed.

(** X13. Whatever the outside answers, a run starts with its one network
    call and then sends at most one mail and writes the snapshot file at
    most once, to its fixed path and only after the mail has gone out. The
    file differs afterwards only if such a write was made. The run returns
    normally exactly when the last thing it did was to print, and it prints
    nothing but one of its two status lines. *)
Theorem main_effects
        (cfg : Config) (env : Env) (use_js : bool) (selector : str) (w : World) :
  exists evs,
    trace (main_with cfg env use_js selector w).2
    = trace w ++ fetch_event cfg use_js :: evs
    /\ (length (List.filter is_mail_sent evs) <= 1)%nat
    /\ (length (List.filter is_file_write evs) <= 1)%nat
    /\ (forall p c before after,
          evs = before ++ FileWritten p c :: after ->
          p = SNAPSHOT_FILE
          /\ snapshot_file (main_with cfg env use_js selector w).2 = Some c
          /\ exists m, In (SmtpMessageSent m) before)
    /\ (snapshot_file (main_with cfg env use_js selector w).2 = snapshot_file w
        \/ exists c, In (FileWritten SNAPSHOT_FILE c) evs)
    /\ ((main_with cfg env use_js selector w).1 = Ok tt
        <-> exists line, last evs = Some (Printed line))
    /\ (forall line, In (Printed line) evs ->
          line = lit "No change" \/ line = lit "Change detected -> email sent").
Proof.
  destruct (main_with_shape cfg env use_js selector w)
    as (r & file & evs & -> & Hshape).
  exists evs. cbn [fst snd trace snapshot_file].
  split; [reflexivity|].
  destruct Hshape as [(e & -> & -> & ->)
                     |[(-> & -> & ->)
                      |[(msg & step & -> & -> & ->)
                       |(msg & content & -> & -> & ->)]]].
  - split; [simpl; lia|]. split; [simpl; lia|].
    split; [intros p c before after H; destruct before; discriminate|].
    split; [left; reflexivity|].
    split; [split; [discriminate | intros [line H]; discriminate H]|].
    intros line [].
  - split; [simpl; lia|]. split; [simpl; lia|].
    split.
    { intros p c before after H.
      repeat (destruct before as [|? before]; try discriminate). }
    split; [left; reflexivity|].
    split; [split; [eauto | reflexivity]|].
    intros line [[= <-]|[]]. auto.
  - assert (Hno : forall p c before after,
               smtp_log cfg msg (Some step) <> before ++ FileWritten p c :: after).
    { intros p c before after.
      destruct step; simpl;
        repeat (destruct before as [|? before]; try discriminate). }
    split; [destruct step; simpl; lia|].
    split; [destruct step; simpl; lia|].
    split; [intros p c before after H; exfalso; eapply Hno; eauto|].
    split; [auto|].
    split.
    + split; [discriminate|]. intros [line H]. destruct step; discriminate.
    + intros line H. destruct step; simpl in H; intuition discriminate.
  - split; [simpl; lia|]. split; [simpl; lia|].
    split.
    + intros p c before after H. simpl in H.
      repeat (destruct before as [|? before]; try discriminate).
      injection H as <- <- <- <- <- <- _.
      split; [reflexivity|]. split; [reflexivity|].
      exists msg. simpl. auto.
    + split; [right; exists content; simpl; auto 10|].
      split.
      * split; [eauto|reflexivity].
      * intros line H. simpl in H. intuition (try discriminate).
        -- injection H as <-. auto.
Qed.

(** ** From one run to the next *)

(** X14. After a run that returned normally there is a snapshot file, and
    the digest recomputed from it is the digest of the page the run saw,
    whether the run found a change or not. *)
Theorem successful_run_snapshot
        (cfg : Config) (env : Env) (w w1 : World) (html h : str) :
  http_get env = Ok html ->
  make_hash (normalize_text (soup_get_text env html)) = Ok h ->
  main cfg env w = (Ok tt, w1) ->
  exists stored,
    snapshot_file w1 = Some stored
    /\ make_hash (universal_newlines stored) = Ok h
    /\ get_last_snapshot w1 = (Ok (Some (universal_newlines stored), Some h), w1).
Proof.
  intros Hget Hh Hrun.
  destruct (main_ok_snapshot cfg env w w1 html h Hget Hh Hrun)
    as (stored & Hfile & Hold).
  exists stored. repeat split; auto.
  rewrite (get_last_snapshot_present w1 stored Hfile). now rewrite Hold.
Qed.

Lemma successful_run_snapshot_witness :
  main demo_cfg (demo_env None demo_page) demo_world_new
  = (Ok tt, (main demo_cfg (demo_env None demo_page) demo_world_new).2)
  /\ exists stored,
       snapshot_file (main demo_cfg (demo_env None demo_page) demo_world_new).2
       = Some stored
       /\ make_hash (universal_newlines stored) = Ok hash_ax.
Proof.
  assert (H1 : make_hash (normalize_text
                 (soup_get_text (demo_env None demo_page) demo_page)) = Ok hash_ax)
    by (vm_compute; reflexivity).
  assert (H2 : main demo_cfg (demo_env None demo_page) demo_world_new
               = (Ok tt, (main demo_cfg (demo_env None demo_page) demo_world_new).2))
    by (vm_compute; reflexivity).
  split; [exact H2|].
  destruct (successful_run_snapshot demo_cfg (demo_env None demo_page)
              demo_world_new _ demo_page hash_ax eq_refl H1 H2)
    as (stored & Hfile & Hold & _).
  exists stored. auto.
Defined.

(** X15. A notification that failed is made again by the next run: when a
    run detects a change and its mail session fails, the snapshot stays as
    it was, so a following run over the same page, with a mail session
    that works, detects the same change against the same old text, sends
    the mail and only then saves the snapshot. *)
Theorem failed_notification_is_retried
        (cfg : Config) (env env2 : Env) (w : World) (html html2 h : str)
        (oc oh : option str) (step : smtp_step) :
  let content := normalize_text (soup_get_text env html) in
  let w1 := (main cfg env w).2 in
  let msg2 := compose_email cfg (change_subject cfg) (change_body cfg env2 h)
                (Some (generate_diff oc content)) in
  http_get env = Ok html ->
  make_hash content = Ok h ->
  get_last_snapshot w = (Ok (oc, oh), w) ->
  oh <> Some h ->
  smtp_fault env = Some step ->
  http_get env2 = Ok html2 ->
  normalize_text (soup_get_text env2 html2) = content ->
  smtp_fault env2 = None ->
  (main cfg env w).1 = Raise SMTPException
  /\ snapshot_file w1 = snapshot_file w
  /\ main cfg env2 w1
     = (Ok tt,
        mkWorld (Some content)
          (trace w1 ++ [HttpGet (URL cfg) USER_AGENT] ++ smtp_log cfg msg2 None
             ++ [FileWritten SNAPSHOT_FILE content;
                 Printed (lit "Change detected -> email sent")])).
Proof.
  intros content w1 msg2. subst content w1 msg2.
  intros Hget Hh Hsnap Hne Hko Hget2 Hsame Hok2.
  pose proof (main_change cfg env w html h oc oh Hget Hh Hsnap Hne) as Hrun.
  cbv zeta in Hrun. rewrite Hko in Hrun.
  rewrite Hrun. cbn [fst snd].
  split; [reflexivity|]. split; [reflexivity|].
  assert (Hh2 : make_hash (normalize_text (soup_get_text env2 html2)) = Ok h)
    by now rewrite Hsame.
  destruct (get_last_snapshot_logged w
              ([HttpGet (URL cfg) USER_AGENT]
               ++ smtp_log cfg
                    (compose_email cfg (change_subject cfg) (change_body cfg env h)
                       (Some (generate_diff oc
                                (normalize_text (soup_get_text env html)))))
                    (Some step))
              _ _ Hsnap) as [_ Hsnap1].
  rewrite (main_change cfg env2 _ html2 h oc oh Hget2 Hh2 Hsnap1 Hne).
  cbv zeta. rewrite Hok2, Hsame. reflexivity.
Qed.

Lemma failed_notification_is_retried_witness :
  smtp_fault (demo_env (Some Login) demo_page) = Some Login
  /\ main demo_cfg (demo_env None demo_page)
       (main demo_cfg (demo_env (Some Login) demo_page) demo_world_ab).2
     = (Ok tt,
        mkWorld (Some (nl_join ["a"; "x"]))
          (trace (main demo_cfg (demo_env (Some Login) demo_page) demo_world_ab).2
             ++ [HttpGet (URL demo_cfg) USER_AGENT]
             ++ smtp_log demo_cfg
                  (compose_email demo_cfg (change_subject demo_cfg)
                     (change_body demo_cfg (demo_env None demo_page) hash_ax)
                     (Some (generate_diff (Some (nl_join ["a"; "b"]))
                              (nl_join ["a"; "x"])))) None
             ++ [FileWritten SNAPSHOT_FILE (nl_join ["a"; "x"]);
                 Printed (lit "Change detected -> email sent")])).
Proof.
  assert (H1 : make_hash (normalize_text
                 (soup_get_text (demo_env (Some Login) demo_page) demo_page))
               = Ok hash_ax)
    by (vm_compute; reflexivity).
  assert (H2 : get_last_snapshot demo_world_ab
               = (Ok (Some (nl_join ["a"; "b"]), Some hash_ab), demo_world_ab))
    by (vm_compute; reflexivity).
  assert (H3 : Some hash_ab <> Some hash_ax) by discriminate.
  split; [reflexivity|].
  exact (proj2 (proj2
           (failed_notification_is_retried demo_cfg
              (demo_env (Some Login) demo_page) (demo_env None demo_page)
              demo_world_ab demo_page demo_page hash_ax _ _ Login
              eq_refl H1 H2 H3 eq_refl eq_refl eq_refl eq_refl))).
Defined.

(** ** The differ against an empty new side *)

Section EmptyNewSide.

Import DiffLib.
Local Open Scope Z_scope.

Implicit Types a : list str.



Lemma extend_left_at_start a b alo blo junk fuel m :
  m_a m = alo -> extend_left a b alo blo junk fuel m = m.
Proof.
  intros H. destruct fuel; [reflexivity|]. simpl.
  now rewrite H, Z.ltb_irrefl.
Qed.

Lemma extend_right_at_end a b ahi bhi junk fuel m :
  m_b m + m_size m = bhi -> extend_right a b ahi bhi junk fuel m = m.
Proof.
  intros H. destruct fuel; [reflexivity|]. simpl.
  rewrite H, Z.ltb_irrefl. now rewrite andb_false_r.
Qed.

Lemma grow_parked a b alo ahi blo bhi junk m :
  m_a m = alo -> m_b m + m_size m = bhi ->
  grow a b alo ahi blo bhi junk m = m.
Proof.
  intros Ha Hb. unfold grow. cbv zeta.
  rewrite (extend_left_at_start a b alo blo junk _ m Ha).
  apply extend_right_at_end, Hb.
Qed.





End EmptyNewSide.



Example generate_diff_emptied_ex :
  generate_diff (Some (nl_join ["a"; "b"])) []
  = nl_join ["--- "; "+++ "; "@@ -1,2 +0,0 @@"; "-a"; "-b"].
Proof. vm_compute. reflexivity. Qed.

(** ** The matcher finds common blocks *)

Section MatcherSound.

Import DiffLib.
Local Open Scope Z_scope.

Variables a b : list str.

Lemma b2j_all_sound elt js :
  b2j_all b !! elt = Some js ->
  Forall (fun j => 0 <= j /\ b_at b j = Some elt) js.
Proof.
  unfold b2j_all.
  assert (Hpairs : Forall (fun ie : nat * str => b !! ie.1 = Some ie.2) (imap pair b)).
  { apply Forall_forall. intros [n x] Hin.
    apply elem_of_lookup_imap in Hin as (n' & x' & [= -> ->] & Hx). exact Hx. }
  revert Hpairs elt js.
  assert (Hgen : forall (l : list (nat * str)) (m : gmap str (list Z)),
             Forall (fun ie : nat * str => b !! ie.1 = Some ie.2) l ->
             (forall elt js, m !! elt = Some js ->
                Forall (fun j => 0 <= j /\ b_at b j = Some elt) js) ->
             forall elt js,
               fold_left
                 (fun m (ie : nat * str) =>
                    <[ie.2 := default [] (m !! ie.2) ++ [Z.of_nat ie.1]]> m) l m
               !! elt = Some js ->
               Forall (fun j => 0 <= j /\ b_at b j = Some elt) js).
  { induction l as [|[n x] l IH]; intros m Hl Hm elt js; simpl.
    - apply Hm.
    - inversion Hl as [|? ? Hnx Hl']; subst. simpl in Hnx.
      apply IH; [assumption|].
      intros elt' js'. rewrite lookup_insert. case_decide as Heq.
      + intros [= <-]. subst elt'. apply Forall_app. split.
        * destruct (m !! x) as [old|] eqn:E; simpl; [now apply Hm | constructor].
        * constructor; [|constructor]. split; [lia|].
          unfold b_at. now rewrite Nat2Z.id.
      + apply Hm. }
  intros Hpairs elt js. apply Hgen; [assumption|].
  intros elt' js'. now rewrite lookup_empty.
Qed.

Lemma b2j_sound elt js :
  b2j b !! elt = Some js ->
  Forall (fun j => 0 <= j /\ b_at b j = Some elt) js.
Proof.
  unfold b2j. destruct (200 <=? lb b).
  - intros H. apply map_lookup_filter_Some in H as [H _].
    now apply b2j_all_sound.
  - apply b2j_all_sound.
Qed.

Lemma same_line_common i j :
  same_line a b i j = true ->
  exists x, a_at a i = Some x /\ b_at b j = Some x.
Proof.
  unfold same_line. destruct (a_at a i) as [x|]; [|discriminate].
  destruct (b_at b j) as [y|]; [|discriminate].
  intros H. apply bool_decide_eq_true_1 in H as ->. eauto.
Qed.

Section Range.

Variables alo ahi blo bhi : Z.

Local Notation "'good' m" := (good_match a b (alo, ahi, blo, bhi) m)
  (at level 10, m at level 9).
Local Notation "'entry_ok' i" := (run_entry a b (alo, ahi, blo, bhi) i)
  (at level 10, i at level 9).

Lemma good_parked :
  proper (alo, ahi, blo, bhi) -> good (mkMatch alo blo 0).
Proof.
  intros [Ha Hb]. unfold r_alo, r_ahi, r_blo, r_bhi in *. simpl in *.
  unfold good_match, inside, range_of, common, r_alo, r_ahi, r_blo, r_bhi. simpl.
  repeat split; intros; lia.
Qed.

Lemma scan_row_good i elt js : forall j2len new best,
  alo <= i < ahi ->
  a_at a i = Some elt ->
  Forall (fun j => 0 <= j /\ b_at b j = Some elt) js ->
  map_Forall (entry_ok (i - 1)) j2len ->
  map_Forall (entry_ok i) new ->
  good best ->
  map_Forall (entry_ok i) (scan_row blo bhi i js j2len new best).1
  /\ good (scan_row blo bhi i js j2len new best).2.
Proof.
  induction js as [|j js IH]; intros j2len new best Hi Hai Hjs Hold Hnew Hbest.
  - simpl. auto.
  - inversion Hjs as [|? ? [Hj0 Hbj] Hjs']; subst. simpl.
    destruct (j <? blo) eqn:Hlo; [now apply IH|].
    destruct (bhi <=? j) eqn:Hhi; [simpl; auto|].
    apply Z.ltb_ge in Hlo. apply Z.leb_gt in Hhi.
    set (k := default 0 (j2len !! (j - 1)) + 1).
    assert (Hk : entry_ok i j k).
    { unfold k, run_entry, r_alo, r_blo, r_bhi. simpl.
      destruct (j2len !! (j - 1)) as [v|] eqn:E; simpl.
      - pose proof (map_Forall_lookup_1 _ _ _ _ Hold E) as ((Hv & Hb1 & _) & Hrun).
        unfold r_alo, r_blo, r_bhi in *. simpl in *.
        split; [lia|]. intros t Ht.
        destruct (Z.eq_dec t 0) as [->|Hne].
        + rewrite !Z.sub_0_r. eauto.
        + destruct (Hrun (t - 1)) as (x & Hx1 & Hx2); [lia|].
          exists x. split.
          * now replace (i - t) with (i - 1 - (t - 1)) by lia.
          * now replace (j - t) with (j - 1 - (t - 1)) by lia.
      - split; [lia|]. intros t Ht.
        replace t with 0 by lia. rewrite !Z.sub_0_r. eauto. }
    apply IH; [assumption | assumption | assumption | assumption | |].
    + now apply map_Forall_insert_2.
    + destruct (m_size best <? k); [|assumption].
      destruct Hk as ((Hv & Hb1 & Hb2) & Hrun).
      unfold r_alo, r_blo, r_bhi in *. simpl in *.
      unfold good_match, inside, range_of, common, r_alo, r_ahi, r_blo, r_bhi.
      simpl. split; [lia|]. split; [lia|]. intros t Ht.
      destruct (Hrun (k - 1 - t)) as (x & Hx1 & Hx2); [lia|].
      exists x. split.
      * now replace (i - k + 1 + t) with (i - (k - 1 - t)) by lia.
      * now replace (j - k + 1 + t) with (j - (k - 1 - t)) by lia.
Qed.

Lemma scan_rows_fold_good n : forall r (st : gmap Z Z * Match),
  proper (alo, ahi, blo, bhi) ->
  alo <= r ->
  r + Z.of_nat n <= ahi ->
  map_Forall (entry_ok (r - 1)) st.1 ->
  good st.2 ->
  good
    (fold_left
       (fun (st : gmap Z Z * Match) i =>
          let js := match a_at a i with
                    | Some elt => default [] (b2j b !! elt)
                    | None => []
                    end in
          scan_row blo bhi i js st.1 ∅ st.2)
       (seqZ r (Z.of_nat n)) st).2.
Proof.
  induction n as [|n IH]; intros r st Hrange Hr Hn Hmap Hbest.
  - simpl. assumption.
  - rewrite seqZ_cons by lia. simpl fold_left.
    replace (Z.pred (Z.of_nat (S n))) with (Z.of_nat n) by lia.
    set (js := match a_at a r with
               | Some elt => default [] (b2j b !! elt)
               | None => []
               end).
    assert (Hrow : map_Forall (entry_ok r) (scan_row blo bhi r js st.1 ∅ st.2).1
                   /\ good (scan_row blo bhi r js st.1 ∅ st.2).2).
    { subst js. destruct (a_at a r) as [elt|] eqn:Hai.
      - apply (scan_row_good r elt); try assumption; try lia.
        + destruct (b2j b !! elt) as [js|] eqn:Hjs; simpl; [|constructor].
          now apply (b2j_sound elt).
        + apply map_Forall_empty.
      - simpl. split; [apply map_Forall_empty | assumption]. }
    destruct Hrow as [Hmap' Hbest'].
    apply IH; [assumption | lia | lia | | assumption].
    now replace (Z.succ r - 1) with r by lia.
Qed.

Lemma scan_rows_good :
  proper (alo, ahi, blo, bhi) -> good (scan_rows a b alo ahi blo bhi).
Proof.
  intros Hrange. unfold scan_rows.
  destruct (Z_le_gt_dec (ahi - alo) 0) as [Hle|Hgt].
  - rewrite seqZ_nil by assumption. now apply good_parked.
  - replace (ahi - alo) with (Z.of_nat (Z.to_nat (ahi - alo))) by lia.
    apply scan_rows_fold_good; simpl;
      [assumption | lia | lia | | now apply good_parked].
    apply map_Forall_empty.
Qed.

Lemma extend_left_good junk fuel : forall m,
  good m -> good (extend_left a b alo blo junk fuel m).
Proof.
  induction fuel as [|fuel IH]; intros m Hm; [exact Hm|].
  simpl.
  destruct ((alo <? m_a m) && (blo <? m_b m)
            && bool_decide (b_junk_at b (m_b m - 1) = junk)
            && same_line a b (m_a m - 1) (m_b m - 1)) eqn:E; [|exact Hm].
  rewrite !andb_true_iff in E. destruct E as [[[Ha Hb] _] Hsame].
  apply Z.ltb_lt in Ha, Hb. apply same_line_common in Hsame as (x & Hx1 & Hx2).
  apply IH. destruct Hm as (Hin & Hsz & Hcom).
  unfold good_match, inside, range_of, common, r_alo, r_ahi, r_blo, r_bhi in *.
  simpl in *. split; [lia|]. split; [lia|].
  intros t Ht. destruct (Z.eq_dec t 0) as [->|Hne].
  - rewrite !Z.add_0_r. eauto.
  - destruct (Hcom (t - 1)) as (y & Hy1 & Hy2); [lia|].
    exists y. split.
    + now replace (m_a m - 1 + t) with (m_a m + (t - 1)) by lia.
    + now replace (m_b m - 1 + t) with (m_b m + (t - 1)) by lia.
Qed.

Lemma extend_right_good junk fuel : forall m,
  good m -> good (extend_right a b ahi bhi junk fuel m).
Proof.
  induction fuel as [|fuel IH]; intros m Hm; [exact Hm|].
  simpl.
  destruct ((m_a m + m_size m <? ahi) && (m_b m + m_size m <? bhi)
            && bool_decide (b_junk_at b (m_b m + m_size m) = junk)
            && same_line a b (m_a m + m_size m) (m_b m + m_size m)) eqn:E;
    [|exact Hm].
  rewrite !andb_true_iff in E. destruct E as [[[Ha Hb] _] Hsame].
  apply Z.ltb_lt in Ha, Hb. apply same_line_common in Hsame as (x & Hx1 & Hx2).
  apply IH. destruct Hm as (Hin & Hsz & Hcom).
  unfold good_match, inside, range_of, common, r_alo, r_ahi, r_blo, r_bhi in *.
  simpl in *. split; [lia|]. split; [lia|].
  intros t Ht. destruct (Z.eq_dec t (m_size m)) as [->|Hne].
  - eauto.
  - apply Hcom. lia.
Qed.

Lemma find_longest_match_good :
  proper (alo, ahi, blo, bhi) -> good (find_longest_match a b alo ahi blo bhi).
Proof.
  intros Hrange. unfold find_longest_match, grow.
  repeat first [apply extend_right_good | apply extend_left_good].
  now apply scan_rows_good.
Qed.

End Range.

End MatcherSound.

(** ** The blocks of the work list lie apart *)

Lemma apart_sym r s : apart r s -> apart s r.
Proof. unfold apart. tauto. Qed.

Lemma inside_apart r outer s : inside r outer -> apart outer s -> apart r s.
Proof.
  unfold inside, apart, before. intros Hin [H|H]; [left | right]; lia.
Qed.

Lemma inside_trans r s t : inside r s -> inside s t -> inside r t.
Proof. unfold inside. lia. Qed.

Lemma all_apart_perm l l' : Permutation l l' -> all_apart l -> all_apart l'.
Proof.
  induction 1 as [|x l l' Hp IH|x y l|l l' l'' _ IH1 _ IH2]; simpl.
  - auto.
  - intros [Hx Hl]. split; [now rewrite <- Hp | auto].
  - intros [Hy [Hx Hl]]. inversion Hy as [|? ? Hyx Hyl]; subst.
    repeat split; auto. constructor; [now apply apart_sym | assumption].
  - auto.
Qed.

Lemma all_apart_cons_app r l : Forall (apart r) l -> all_apart l -> all_apart (r :: l).
Proof. simpl. auto. Qed.

Lemma all_apart_app_r l1 l2 : all_apart (l1 ++ l2) -> all_apart l2.
Proof. induction l1 as [|x l1 IH]; simpl; [auto | tauto]. Qed.

Section MatchingLoop.

Import DiffLib.
Local Open Scope Z_scope.

Variables a b : list str.

Lemma matching_loop_blocks fuel : forall queue blocks,
  Forall (range_ok a b) queue ->
  Forall (block_ok a b) blocks ->
  all_apart (queue ++ map range_of blocks) ->
  Forall (block_ok a b) (matching_loop a b fuel queue blocks)
  /\ all_apart (map range_of (matching_loop a b fuel queue blocks)).
Proof.
  induction fuel as [|fuel IH]; intros queue blocks Hq Hb Hsep.
  - simpl. split; [assumption | now apply (all_apart_app_r queue)].
  - destruct queue as [|[[[alo ahi] blo] bhi] queue].
    { simpl in *. auto. }
    cbn [matching_loop].
    inversion Hq as [|? ? [Hproper Hinside] Hq']; subst.
    pose proof (find_longest_match_good a b alo ahi blo bhi Hproper)
      as (Hin & Hsize & Hcommon).
    set (x := find_longest_match a b alo ahi blo bhi) in *.
    simpl in Hsep. destruct Hsep as [Hrest Hsep].
    destruct (m_size x =? 0) eqn:Hk0; [now apply IH|].
    apply Z.eqb_neq in Hk0.
    assert (Hxin : Forall (apart (range_of x)) (queue ++ map range_of blocks)).
    { eapply Forall_impl; [exact Hrest|]. intros s Hs.
      now apply (inside_apart _ (alo, ahi, blo, bhi)). }
    unfold inside, range_of, r_alo, r_ahi, r_blo, r_bhi in Hin. simpl in Hin.
    destruct Hproper as [Hpa Hpb].
    unfold r_alo, r_ahi, r_blo, r_bhi in Hpa, Hpb. simpl in Hpa, Hpb.
    set (left_ := (alo, m_a x, blo, m_b x) : range).
    set (right_ := (m_a x + m_size x, ahi, m_b x + m_size x, bhi) : range).
    assert (Hl_in : inside left_ (alo, ahi, blo, bhi)).
    { unfold inside, left_, r_alo, r_ahi, r_blo, r_bhi. simpl. lia. }
    assert (Hr_in : inside right_ (alo, ahi, blo, bhi)).
    { unfold inside, right_, r_alo, r_ahi, r_blo, r_bhi. simpl. lia. }
    assert (Hl_ok : range_ok a b left_).
    { split; [|now apply (inside_trans _ (alo, ahi, blo, bhi))].
      unfold proper, left_, r_alo, r_ahi, r_blo, r_bhi. simpl. lia. }
    assert (Hr_ok : range_ok a b right_).
    { split; [|now apply (inside_trans _ (alo, ahi, blo, bhi))].
      unfold proper, right_, r_alo, r_ahi, r_blo, r_bhi. simpl. lia. }
    assert (Hl_x : apart left_ (range_of x)).
    { left. unfold before, left_, range_of, r_alo, r_ahi, r_blo, r_bhi. simpl. lia. }
    assert (Hr_x : apart right_ (range_of x)).
    { right. unfold before, right_, range_of, r_alo, r_ahi, r_blo, r_bhi. simpl. lia. }
    assert (Hr_l : apart right_ left_).
    { right. unfold before, right_, left_, r_alo, r_ahi, r_blo, r_bhi. simpl. lia. }
    assert (Hl_rest : Forall (apart left_) (queue ++ map range_of blocks)).
    { eapply Forall_impl; [exact Hrest|]. intros s Hs.
      now apply (inside_apart _ (alo, ahi, blo, bhi)). }
    assert (Hr_rest : Forall (apart right_) (queue ++ map range_of blocks)).
    { eapply Forall_impl; [exact Hrest|]. intros s Hs.
      now apply (inside_apart _ (alo, ahi, blo, bhi)). }
    assert (Hx_ok : block_ok a b x).
    { split; [|lia]. split; [|auto].
      apply (inside_trans _ (alo, ahi, blo, bhi)); [|assumption].
      unfold inside, range_of, r_alo, r_ahi, r_blo, r_bhi. simpl. lia. }
    assert (Hblocks : Forall (block_ok a b) (blocks ++ [x])).
    { apply Forall_app. split; [assumption | now constructor]. }
    assert (Hbase : all_apart (queue ++ map range_of (blocks ++ [x]))).
    { rewrite map_app, app_assoc. simpl.
      eapply all_apart_perm; [apply Permutation_cons_append|].
      now apply all_apart_cons_app. }
    assert (Hl_base : Forall (apart left_) (queue ++ map range_of (blocks ++ [x]))).
    { rewrite map_app, app_assoc. apply Forall_app. split; [assumption|].
      now constructor. }
    assert (Hr_base : Forall (apart right_) (queue ++ map range_of (blocks ++ [x]))).
    { rewrite map_app, app_assoc. apply Forall_app. split; [assumption|].
      now constructor. }
    destruct ((alo <? m_a x) && (blo <? m_b x)),
             ((m_a x + m_size x <? ahi) && (m_b x + m_size x <? bhi)).
    + apply IH; [|assumption|].
      * constructor; [assumption|]. constructor; assumption.
      * simpl. split; [constructor; assumption|]. split; assumption.
    + apply IH; [constructor; assumption | assumption |].
      simpl. split; assumption.
    + apply IH; [constructor; assumption | assumption |].
      simpl. split; assumption.
    + apply IH; assumption.
Qed.

End MatchingLoop.

(** ** Sorted and merged, the blocks ascend *)

Section Ascending.

Import DiffLib.
Local Open Scope Z_scope.

Lemma match_leb_total x y : match_leb x y = false -> match_leb y x = true.
Proof.
  unfold match_leb.
  rewrite orb_false_iff, !andb_false_iff, orb_false_iff, andb_false_iff.
  rewrite !orb_true_iff, !andb_true_iff, !orb_true_iff, !andb_true_iff.
  rewrite !Z.ltb_lt, !Z.eqb_eq, !Z.leb_le, !Z.ltb_ge, !Z.eqb_neq, !Z.leb_gt. lia.
Qed.

Lemma insert_sorted_perm x l : Permutation (insert_sorted x l) (x :: l).
Proof.
  induction l as [|y l IH]; simpl; [reflexivity|].
  destruct (match_leb x y); [reflexivity|].
  rewrite IH. apply perm_swap.
Qed.

Lemma sort_matches_perm l : Permutation (sort_matches l) l.
Proof.
  induction l as [|x l IH]; simpl; [reflexivity|].
  rewrite insert_sorted_perm. now constructor.
Qed.

Lemma insert_sorted_sorted x l :
  sorted_matches l -> sorted_matches (insert_sorted x l).
Proof.
  induction l as [|y l IH]; simpl; [auto|].
  intros [Hy Hl]. destruct (match_leb x y) eqn:Hxy.
  - simpl. rewrite Hxy. auto.
  - specialize (IH Hl). split; [|exact IH].
    destruct l as [|z l']; simpl in *.
    + now apply match_leb_total.
    + destruct (match_leb x z); [now apply match_leb_total | exact Hy].
Qed.

Lemma sort_matches_sorted l : sorted_matches (sort_matches l).
Proof.
  induction l as [|x l IH]; simpl; [exact I | now apply insert_sorted_sorted].
Qed.

(** Sorted blocks that lie apart and are not empty follow one another. *)
Lemma sorted_apart_ascending l : forall i j,
  sorted_matches l ->
  all_apart (map range_of l) ->
  Forall (fun x => 1 <= m_size x) l ->
  match l with [] => True | x :: _ => i <= m_a x /\ j <= m_b x end ->
  ascending i j l.
Proof.
  induction l as [|x l IH]; intros i j Hsorted Hsep Hsize Hhead; [exact I|].
  simpl in *. destruct Hsorted as [Hxy Hsorted]. destruct Hsep as [Hx Hsep].
  inversion Hsize as [|? ? Hkx Hsize']; subst.
  split; [lia|]. apply IH; try assumption.
  destruct l as [|y l']; [exact I|].
  inversion Hx as [|? ? Hxy' _]; subst. inversion Hsize' as [|? ? Hky _]; subst.
  unfold match_leb in Hxy.
  rewrite !orb_true_iff, !andb_true_iff, !orb_true_iff, !andb_true_iff in Hxy.
  rewrite !Z.ltb_lt, !Z.eqb_eq, !Z.leb_le in Hxy.
  unfold apart, before, range_of, r_alo, r_ahi, r_blo, r_bhi in Hxy'.
  simpl in Hxy'. lia.
Qed.

Variables a b : list str.

Lemma common_merge x y :
  0 <= m_size x -> 0 <= m_size y ->
  m_a x + m_size x = m_a y -> m_b x + m_size x = m_b y ->
  common a b x -> common a b y ->
  common a b (mkMatch (m_a x) (m_b x) (m_size x + m_size y)).
Proof.
  intros Hx Hy Ha Hb Hcx Hcy t Ht. simpl in *.
  destruct (Z_lt_ge_dec t (m_size x)) as [Hlt|Hge].
  - apply Hcx. lia.
  - destruct (Hcy (t - m_size x)) as (z & Hz1 & Hz2); [lia|].
    exists z. split.
    + now replace (m_a x + t) with (m_a y + (t - m_size x)) by lia.
    + now replace (m_b x + t) with (m_b y + (t - m_size x)) by lia.
Qed.

Lemma collapse_common l : forall cur,
  0 <= m_size cur -> common a b cur ->
  Forall (fun x => 0 <= m_size x /\ common a b x) l ->
  Forall (common a b) (collapse cur l).
Proof.
  induction l as [|x l IH]; intros cur Hk Hcur Hl; simpl.
  - destruct (m_size cur =? 0); repeat constructor; assumption.
  - inversion Hl as [|? ? [Hkx Hcx] Hl']; subst.
    destruct ((m_a cur + m_size cur =? m_a x) && (m_b cur + m_size cur =? m_b x))
      eqn:Hadj.
    + apply andb_true_iff in Hadj as [Ha Hb]. apply Z.eqb_eq in Ha, Hb.
      apply IH; [simpl; lia | now apply common_merge | assumption].
    + apply Forall_app. split; [|now apply IH].
      destruct (m_size cur =? 0); repeat constructor; assumption.
Qed.

Lemma collapse_ascending (ea eb : Z) l : forall cur i j,
  i <= m_a cur -> j <= m_b cur -> 0 <= m_size cur ->
  ascending (m_a cur + m_size cur) (m_b cur + m_size cur) l ->
  Forall (fun x => m_a x + m_size x <= ea /\ m_b x + m_size x <= eb) (cur :: l) ->
  ascending i j (collapse cur l ++ [mkMatch ea eb 0]).
Proof.
  induction l as [|x l IH]; intros cur i j Hi Hj Hk Hasc Hend.
  - inversion Hend as [|? ? [Hea Heb] _]; subst. simpl.
    destruct (m_size cur =? 0); simpl; repeat split; lia.
  - inversion Hend as [|? ? [Hea Heb] Hend']; subst.
    destruct Hasc as [(Hxa & Hxb & Hxk) Hasc]. simpl.
    destruct ((m_a cur + m_size cur =? m_a x) && (m_b cur + m_size cur =? m_b x))
      eqn:Hadj.
    + apply andb_true_iff in Hadj as [Ha Hb]. apply Z.eqb_eq in Ha, Hb.
      inversion Hend' as [|? ? [Hxea Hxeb] Hend'']; subst.
      apply IH; simpl; try lia.
      * now replace (m_a cur + (m_size cur + m_size x)) with (m_a x + m_size x)
          by lia;
        replace (m_b cur + (m_size cur + m_size x)) with (m_b x + m_size x)
          by lia.
      * constructor; [simpl; lia | assumption].
    + destruct (m_size cur =? 0) eqn:Hk0; simpl.
      * apply Z.eqb_eq in Hk0. apply IH; try assumption; lia.
      * split; [lia|]. apply IH; try assumption; lia.
Qed.

End Ascending.

(** ** The opcodes are an edit script *)

Section EditScript.

Import DiffLib.
Local Open Scope Z_scope.

Lemma take_plus {A} (n m : nat) : forall l : list A,
  take (n + m) l = take n l ++ take m (drop n l).
Proof.
  induction n as [|n IH]; intros l; [reflexivity|].
  destruct l as [|x l]; simpl; [now rewrite take_nil | now rewrite IH].
Qed.

Lemma slice_app {A} (l : list A) i m k :
  0 <= i <= m -> m <= k -> slice l i m ++ slice l m k = slice l i k.
Proof.
  intros Him Hmk. unfold slice.
  replace (Z.to_nat k - Z.to_nat i)%nat
    with ((Z.to_nat m - Z.to_nat i) + (Z.to_nat k - Z.to_nat m))%nat by lia.
  rewrite take_plus, drop_drop.
  now replace (Z.to_nat i + (Z.to_nat m - Z.to_nat i))%nat with (Z.to_nat m) by lia.
Qed.

Lemma slice_empty {A} (l : list A) i : slice l i i = [].
Proof. unfold slice. now rewrite Nat.sub_diag. Qed.

Lemma slice_whole {A} (l : list A) : slice l 0 (Z.of_nat (length l)) = l.
Proof.
  unfold slice. rewrite Nat2Z.id. simpl. rewrite Nat.sub_0_r. apply firstn_all.
Qed.

Variables a b : list str.

Lemma common_slices x :
  0 <= m_a x -> 0 <= m_b x -> 0 <= m_size x -> common a b x ->
  slice a (m_a x) (m_a x + m_size x) = slice b (m_b x) (m_b x + m_size x).
Proof.
  intros Ha Hb Hk Hcom. unfold slice.
  replace (Z.to_nat (m_a x + m_size x) - Z.to_nat (m_a x))%nat
    with (Z.to_nat (m_size x)) by lia.
  replace (Z.to_nat (m_b x + m_size x) - Z.to_nat (m_b x))%nat
    with (Z.to_nat (m_size x)) by lia.
  apply list_eq. intros n.
  destruct (decide (n < Z.to_nat (m_size x))%nat) as [Hn|Hn].
  - rewrite !lookup_take_lt, !lookup_drop by assumption.
    destruct (Hcom (Z.of_nat n)) as (y & Hy1 & Hy2); [lia|].
    unfold a_at, b_at in *.
    replace (Z.to_nat (m_a x + Z.of_nat n)) with (Z.to_nat (m_a x) + n)%nat
      in Hy1 by lia.
    replace (Z.to_nat (m_b x + Z.of_nat n)) with (Z.to_nat (m_b x) + n)%nat
      in Hy2 by lia.
    now rewrite Hy1, Hy2.
  - rewrite !lookup_take_ge by lia. reflexivity.
Qed.

Lemma ascending_end (ea eb : Z) pre : forall i j,
  ascending i j (pre ++ [mkMatch ea eb 0]) -> i <= ea /\ j <= eb.
Proof.
  induction pre as [|x pre IH]; intros i j; simpl.
  - lia.
  - intros [(Hi & Hj & Hk) Hrest]. apply IH in Hrest. lia.
Qed.

Lemma opcodes_tile (ea eb : Z) pre : forall i j,
  0 <= i -> 0 <= j ->
  ascending i j (pre ++ [mkMatch ea eb 0]) ->
  flat_map (a_part a) (opcodes_from i j (pre ++ [mkMatch ea eb 0])) = slice a i ea
  /\ flat_map (b_part b) (opcodes_from i j (pre ++ [mkMatch ea eb 0])) = slice b j eb.
Proof.
  induction pre as [|[ai bj size] pre IH]; intros i j Hi Hj Hasc.
  - simpl in *. destruct Hasc as [(Hia & Hjb & _) _].
    destruct (Z.ltb_spec i ea), (Z.ltb_spec j eb); simpl;
      unfold a_part, b_part; simpl; rewrite ?app_nil_r;
      try (replace ea with i by lia); try (replace eb with j by lia);
      rewrite ?slice_empty; auto.
  - simpl app in *. cbn [opcodes_from]. cbn [ascending m_a m_b m_size] in Hasc.
    destruct Hasc as [(Hia & Hjb & Hk) Hrest].
    destruct (ascending_end _ _ _ _ _ Hrest) as [Hea Heb].
    destruct (IH (ai + size) (bj + size)) as [IHa IHb]; [lia | lia | assumption|].
    rewrite !flat_map_app, IHa, IHb.
    assert (Hfirst :
      flat_map (a_part a)
        (if (i <? ai) && (j <? bj) then [Op Replace i ai j bj]
         else if i <? ai then [Op Delete i ai j bj]
         else if j <? bj then [Op Insert i ai j bj] else []) = slice a i ai
      /\ flat_map (b_part b)
        (if (i <? ai) && (j <? bj) then [Op Replace i ai j bj]
         else if i <? ai then [Op Delete i ai j bj]
         else if j <? bj then [Op Insert i ai j bj] else []) = slice b j bj).
    { destruct (Z.ltb_spec i ai), (Z.ltb_spec j bj); simpl;
        unfold a_part, b_part; simpl; rewrite ?app_nil_r;
        try (replace ai with i by lia); try (replace bj with j by lia);
        rewrite ?slice_empty; auto. }
    assert (Hequal :
      flat_map (a_part a)
        (if size =? 0 then [] else [Op Equal ai (ai + size) bj (bj + size)])
      = slice a ai (ai + size)
      /\ flat_map (b_part b)
        (if size =? 0 then [] else [Op Equal ai (ai + size) bj (bj + size)])
      = slice b bj (bj + size)).
    { destruct (Z.eqb_spec size 0) as [->|Hne]; simpl.
      - now rewrite !Z.add_0_r, !slice_empty.
      - unfold a_part, b_part. simpl. now rewrite !app_nil_r. }
    destruct Hfirst as [-> ->], Hequal as [-> ->].
    rewrite !slice_app by lia. auto.
Qed.

Lemma opcodes_equal_common l : forall i j,
  0 <= i -> 0 <= j ->
  ascending i j l ->
  Forall (common a b) l ->
  Forall (fun op => op_tag op = Equal -> a_part a op = b_part b op)
         (opcodes_from i j l).
Proof.
  induction l as [|[ai bj size] l IH]; intros i j Hi Hj Hasc Hcom; [constructor|].
  cbn [opcodes_from]. cbn [ascending m_a m_b m_size] in Hasc.
  destruct Hasc as [(Hia & Hjb & Hk) Hrest].
  inversion Hcom as [|? ? Hc Hcom']; subst.
  apply Forall_app. split; [|apply Forall_app; split].
  - destruct ((i <? ai) && (j <? bj)); [repeat constructor; discriminate|].
    destruct (i <? ai); [repeat constructor; discriminate|].
    destruct (j <? bj); repeat constructor; discriminate.
  - destruct (size =? 0); constructor; [|constructor].
    intros _. unfold a_part, b_part. simpl.
    now apply (common_slices (mkMatch ai bj size)); simpl; try lia.
  - apply IH; try assumption; lia.
Qed.

End EditScript.

Section Script.

Import DiffLib.
Local Open Scope Z_scope.

Variables a b : list str.

Lemma get_matching_blocks_ascending :
  exists pre,
    get_matching_blocks a b = pre ++ [mkMatch (la a) (lb b) 0]
    /\ ascending 0 0 (pre ++ [mkMatch (la a) (lb b) 0])
    /\ Forall (common a b) (pre ++ [mkMatch (la a) (lb b) 0]).
Proof.
  unfold get_matching_blocks.
  set (blocks := matching_loop a b (matching_fuel a) [(0, la a, 0, lb b)] []).
  assert (Hla : 0 <= la a) by (unfold la; lia).
  assert (Hlb : 0 <= lb b) by (unfold lb; lia).
  destruct (matching_loop_blocks a b (matching_fuel a) [(0, la a, 0, lb b)] [])
    as [Hok Hsep].
  { constructor; [|constructor]. split.
    - unfold proper, r_alo, r_ahi, r_blo, r_bhi. simpl. lia.
    - unfold inside, top_range, r_alo, r_ahi, r_blo, r_bhi. simpl. lia. }
  { constructor. }
  { simpl. auto. }
  fold blocks in Hok, Hsep.
  pose proof (sort_matches_perm blocks) as Hperm.
  assert (Hok' : Forall (block_ok a b) (sort_matches blocks)) by now rewrite Hperm.
  assert (Hsep' : all_apart (map range_of (sort_matches blocks))).
  { eapply all_apart_perm; [|exact Hsep]. symmetry. now apply Permutation_map. }
  assert (Hbounds : Forall (fun x => 0 <= m_a x /\ 0 <= m_b x /\ 1 <= m_size x
                                      /\ m_a x + m_size x <= la a
                                      /\ m_b x + m_size x <= lb b
                                      /\ common a b x) (sort_matches blocks)).
  { eapply Forall_impl; [exact Hok'|]. intros x [(Hin & _ & Hc) Hk].
    unfold inside, top_range, range_of, r_alo, r_ahi, r_blo, r_bhi in Hin.
    simpl in Hin. repeat split; try lia. exact Hc. }
  exists (collapse (mkMatch 0 0 0) (sort_matches blocks)).
  split; [reflexivity|]. split.
  - apply collapse_ascending; simpl; try lia.
    + apply sorted_apart_ascending.
      * apply sort_matches_sorted.
      * exact Hsep'.
      * eapply Forall_impl; [exact Hbounds|]. intros x Hx. cbv beta in Hx. tauto.
      * destruct (sort_matches blocks) as [|x l]; [exact I|].
        inversion Hbounds as [|? ? Hx _]; subst. cbv beta in Hx. tauto.
    + constructor; [simpl; lia|].
      eapply Forall_impl; [exact Hbounds|]. intros x Hx. cbv beta in Hx. tauto.
  - apply Forall_app. split.
    + apply collapse_common; [simpl; lia | intros t Ht; simpl in Ht; lia |].
      eapply Forall_impl; [exact Hbounds|]. intros x Hx. cbv beta in Hx.
      split; [lia | tauto].
    + constructor; [|constructor]. intros t Ht. simpl in Ht. lia.
Qed.

Lemma get_opcodes_script :
  flat_map (a_part a) (get_opcodes a b) = a
  /\ flat_map (b_part b) (get_opcodes a b) = b
  /\ Forall (fun op => op_tag op = Equal -> a_part a op = b_part b op)
            (get_opcodes a b).
Proof.
  unfold get_opcodes.
  destruct get_matching_blocks_ascending as (pre & -> & Hasc & Hcom).
  destruct (opcodes_tile a b (la a) (lb b) pre 0 0) as [Ha Hb];
    [lia | lia | assumption|].
  rewrite Ha, Hb. unfold la, lb. rewrite !slice_whole.
  repeat split. apply opcodes_equal_common; [lia | lia | assumption | assumption].
Qed.

End Script.

(** ** A difference always shows *)

Section Shows.

Import DiffLib.
Local Open Scope Z_scope.

Lemma trim_first_changes n codes :
  Exists changes codes -> Exists changes (trim_first n codes).
Proof.
  destruct codes as [|[t i1 i2 j1 j2] rest]; [auto|].
  intros H. destruct t; simpl; try exact H.
  inversion H as [? ? Hc|? ? Hrest]; subst; [discriminate Hc|].
  now apply Exists_cons_tl.
Qed.

Lemma trim_last_changes n codes :
  Exists changes codes -> Exists changes (trim_last n codes).
Proof.
  induction codes as [|[t i1 i2 j1 j2] rest IH]; [auto|].
  intros H. destruct rest as [|c rest'].
  - inversion H as [? ? Hc|? ? Hrest]; subst; [|inversion Hrest].
    destruct t; simpl; first [now constructor | discriminate Hc].
  - assert (E : trim_last n (Op t i1 i2 j1 j2 :: c :: rest')
                = Op t i1 i2 j1 j2 :: trim_last n (c :: rest'))
      by now destruct t.
    rewrite E. inversion H as [? ? Hc|? ? Hrest]; subst.
    + now apply Exists_cons_hd.
    + apply Exists_cons_tl. now apply IH.
Qed.

Lemma group_loop_changes n codes : forall group,
  Exists changes codes \/ Exists changes group ->
  group_loop n codes group <> [].
Proof.
  induction codes as [|[t i1 i2 j1 j2] rest IH]; intros group H.
  - destruct H as [H|H]; [inversion H|]. simpl.
    destruct group as [|[t i1 i2 j1 j2] [|c group']]; [inversion H| |].
    + inversion H as [? ? Hc|? ? Hrest]; subst; [|inversion Hrest].
      destruct t; first [discriminate | discriminate Hc].
    + destruct t; discriminate.
  - simpl. destruct (is_equal t && (n + n <? i2 - i1)); [discriminate|].
    apply IH. destruct H as [H|H].
    + inversion H as [? ? Hc|? ? Hrest]; subst.
      * right. apply Exists_app. right. now constructor.
      * now left.
    + right. apply Exists_app. now left.
Qed.

Lemma get_grouped_opcodes_changes a b n :
  Exists changes (get_opcodes a b) -> get_grouped_opcodes a b n <> [].
Proof.
  intros H. unfold get_grouped_opcodes.
  destruct (get_opcodes a b) as [|c codes] eqn:E; [inversion H|].
  apply group_loop_changes. left.
  now apply trim_last_changes, trim_first_changes.
Qed.

Lemma unified_diff_changes a b lineterm :
  Exists changes (get_opcodes a b) ->
  exists rest,
    unified_diff a b [] [] [] [] 3 lineterm = (lit "--- " ++ lineterm) :: rest.
Proof.
  intros H. apply (get_grouped_opcodes_changes a b 3) in H.
  unfold unified_diff. destruct (get_grouped_opcodes a b 3); [contradiction|].
  eexists. reflexivity.
Qed.

Lemma differ_changes a b : a <> b -> Exists changes (get_opcodes a b).
Proof.
  intros Hne.
  destruct (get_opcodes_script a b) as (Ha & Hb & Heq).
  assert (Hnot : ~ Forall (fun op => is_equal (op_tag op) = true) (get_opcodes a b)).
  { intros Hall. apply Hne.
    transitivity (flat_map (a_part a) (get_opcodes a b)); [now symmetry|].
    transitivity (flat_map (b_part b) (get_opcodes a b)); [|exact Hb].
    clear Ha Hb Hne. induction (get_opcodes a b) as [|op ops IH]; [reflexivity|].
    inversion Hall as [|? ? Hop Hall']; subst.
    inversion Heq as [|? ? Hsame Heq']; subst.
    simpl. rewrite IH by assumption. f_equal. apply Hsame.
    now destruct (op_tag op). }
  apply neg_Forall_Exists_neg in Hnot.
  - eapply Exists_impl; [exact Hnot|].
    intros op Hop. cbv beta in Hop. unfold changes.
    destruct (is_equal (op_tag op)); congruence.
  - intros op. destruct (is_equal (op_tag op)); [left | right]; congruence.
Qed.

End Shows.

Lemma old_lines_default (old : option str) :
  match old with
  | Some o => if truthy o then splitlines o else []
  | None => []
  end = splitlines (default [] old).
Proof. destruct old as [[|c o]|]; reflexivity. Qed.

Lemma join_cons_nonempty sep p more : p <> [] -> join sep (p :: more) <> [].
Proof.
  intros Hp. destruct more as [|q more]; [exact Hp|].
  change (join sep (p :: q :: more)) with (p ++ sep ++ join sep (q :: more)).
  destruct p; [contradiction | discriminate].
Qed.

Lemma splitlines_normalize_text text :
  splitlines (normalize_text text)
  = Reference.kept_lines (Reference.lines_of text).
Proof.
  rewrite normalize_text_reference, splitlines_lines_of.
  apply lines_of_rejoin, kept_lines_clean, lines_of_nobreak.
Qed.

Lemma generate_diff_lines_differ (old : option str) (new : str) :
  splitlines (default [] old) <> splitlines new ->
  generate_diff old new <> [].
Proof.
  intros Hne. unfold generate_diff. rewrite old_lines_default.
  destruct (unified_diff_changes _ _ [] (differ_changes _ _ Hne)) as [rest ->].
  apply join_cons_nonempty. discriminate.
Qed.

(** X17. The differ behind [generate_diff] computes an edit script: its
    opcodes, in order, span the old lines without gap or overlap, and the
    new lines likewise; the runs it marks as equal are equal, line for
    line, in the old and the new text. *)
Theorem get_opcodes_edit_script (a b : list str) :
  flat_map (a_part a) (DiffLib.get_opcodes a b) = a
  /\ flat_map (b_part b) (DiffLib.get_opcodes a b) = b
  /\ Forall (fun op => DiffLib.op_tag op = DiffLib.Equal ->
                       a_part a op = b_part b op)
            (DiffLib.get_opcodes a b).
Proof. apply get_opcodes_script. Qed.

(** X18. A difference always shows: when the old and the new text differ
    as sequences of lines, the diff is not empty, so the mail carries it
    under the heading. *)
Theorem generate_diff_shows_difference
        (cfg : Config) (subject body : str) (old : option str) (new : str) :
  splitlines (default [] old) <> splitlines new ->
  generate_diff old new <> []
  /\ msg_content (compose_email cfg subject body (Some (generate_diff old new)))
     = body ++ [LF; LF] ++ lit "--- DIFF ---" ++ [LF] ++ generate_diff old new.
Proof.
  intros Hne. pose proof (generate_diff_lines_differ old new Hne) as Hd.
  split; [exact Hd|]. unfold compose_email. simpl.
  destruct (generate_diff old new); [contradiction | reflexivity].
Qed.

Lemma generate_diff_shows_difference_witness :
  splitlines (default [] (Some (nl_join ["a"; "b"]))) <> splitlines (nl_join ["a"; "x"])
  /\ generate_diff (Some (nl_join ["a"; "b"])) (nl_join ["a"; "x"]) <> [].
Proof.
  assert (H : splitlines (default [] (Some (nl_join ["a"; "b"])))
              <> splitlines (nl_join ["a"; "x"])) by discriminate.
  split; [exact H|].
  exact (proj1 (generate_diff_shows_difference demo_cfg [] [] _ _ H)).
Defined.

(** X19. Two different normalised texts never give an empty diff: the
    lines of a normalised text determine it. *)
Theorem generate_diff_normalised_texts (old_text new_text : str) :
  normalize_text old_text <> normalize_text new_text ->
  generate_diff (Some (normalize_text old_text)) (normalize_text new_text) <> [].
Proof.
  intros Hne. apply generate_diff_lines_differ. simpl.
  rewrite !splitlines_normalize_text. intros Hlines. apply Hne.
  rewrite !normalize_text_reference. unfold Reference.normalize_reference.
  now rewrite Hlines.
Qed.

Lemma generate_diff_normalised_texts_witness :
  normalize_text (lit " a") <> normalize_text demo_page
  /\ generate_diff (Some (normalize_text (lit " a"))) (normalize_text demo_page)
     <> [].
Proof.
  assert (H : normalize_text (lit " a") <> normalize_text demo_page)
    by discriminate.
  split; [exact H|]. exact (generate_diff_normalised_texts _ _ H).
Defined.

(** ** The index of [__chain_b] *)

Section Index.

Import DiffLib.
Local Open Scope Z_scope.

Lemma positions_from_snoc elt x : forall l k,
  positions_from k elt (l ++ [x])
  = positions_from k elt l
    ++ (if decide (x = elt) then [k + Z.of_nat (length l)] else []).
Proof.
  induction l as [|y l IH]; intros k; simpl.
  - rewrite Z.add_0_r. now rewrite app_nil_r.
  - rewrite IH, <- app_assoc.
    now replace (k + 1 + Z.of_nat (length l)) with (k + Z.pos (Pos.of_succ_nat (length l)))
      by lia.
Qed.

Lemma positions_from_In elt l : forall k j,
  In j (positions_from k elt l)
  <-> exists m, j = k + Z.of_nat m /\ l !! m = Some elt.
Proof.
  induction l as [|y l IH]; intros k j; simpl.
  - split; [contradiction | intros (m & _ & H); discriminate].
  - rewrite in_app_iff, IH. split.
    + intros [H|(m & -> & Hm)].
      * destruct (decide (y = elt)) as [->|_]; [|contradiction].
        destruct H as [<-|[]]. exists 0%nat. split; [lia | reflexivity].
      * exists (S m). split; [lia | exact Hm].
    + intros ([|m] & -> & Hm); simpl in Hm.
      * injection Hm as ->. left. rewrite decide_True by reflexivity.
        left. lia.
      * right. exists m. split; [lia | exact Hm].
Qed.

Lemma positions_from_increasing elt l : forall k,
  increasing (positions_from k elt l).
Proof.
  induction l as [|y l IH]; intros k; simpl; [exact I|].
  destruct (decide (y = elt)); simpl; [|apply IH].
  split; [|apply IH]. apply List.Forall_forall. intros j Hj.
  apply positions_from_In in Hj as (m & -> & _). lia.
Qed.

Lemma b2j_all_snoc b x :
  b2j_all (b ++ [x])
  = <[x := default [] (b2j_all b !! x) ++ [Z.of_nat (length b)]]> (b2j_all b).
Proof.
  unfold b2j_all. rewrite imap_app, fold_left_app. simpl.
  now rewrite Nat.add_0_r.
Qed.

Lemma b2j_all_exact b : forall elt,
  b2j_all b !! elt
  = match positions_from 0 elt b with [] => None | js => Some js end.
Proof.
  induction b as [|x b IH] using rev_ind; intros elt.
  - reflexivity.
  - rewrite b2j_all_snoc, positions_from_snoc, lookup_insert. simpl.
    destruct (decide (x = elt)) as [->|Hne].
    + rewrite IH. destruct (positions_from 0 elt b); reflexivity.
    + rewrite IH, app_nil_r. reflexivity.
Qed.

Lemma b2j_positions b elt js :
  b2j b !! elt = Some js -> js = positions_from 0 elt b.
Proof.
  unfold b2j. intros H.
  assert (Hall : b2j_all b !! elt = Some js).
  { destruct (200 <=? lb b); [|exact H].
    now apply map_lookup_filter_Some in H as [H _]. }
  rewrite b2j_all_exact in Hall.
  destruct (positions_from 0 elt b); congruence.
Qed.

End Index.

(** ** The matcher on two equal sequences *)

Section Same.

Import DiffLib.
Local Open Scope Z_scope.

Variable s : list str.

Lemma indexed_run_nonneg r : 0 <= indexed_run s r.
Proof.
  induction r as [|r IH]; cbn [indexed_run];
    destruct (line_indexed s _); lia.
Qed.

Lemma run_at_nonneg z : 0 <= run_at s z.
Proof.
  unfold run_at. destruct (z <? 0); [lia | apply indexed_run_nonneg].
Qed.

Lemma run_at_neg z : z < 0 -> run_at s z = 0.
Proof. intros Hz. unfold run_at. now rewrite (proj2 (Z.ltb_lt z 0)). Qed.

Lemma run_at_indexed z x :
  0 <= z -> s !! Z.to_nat z = Some x -> is_Some (b2j s !! x) ->
  run_at s z = run_at s (z - 1) + 1.
Proof.
  intros Hz Hx Hidx.
  assert (Hli : line_indexed s (Z.to_nat z) = true).
  { unfold line_indexed. rewrite Hx. now apply bool_decide_eq_true_2. }
  unfold run_at. rewrite (proj2 (Z.ltb_ge z 0)) by lia.
  destruct (Z.to_nat z) as [|r] eqn:E.
  - rewrite (proj2 (Z.ltb_lt (z - 1) 0)) by lia.
    cbn [indexed_run]. rewrite Hli. lia.
  - rewrite (proj2 (Z.ltb_ge (z - 1) 0)) by lia.
    replace (Z.to_nat (z - 1)) with r by lia.
    cbn [indexed_run]. rewrite Hli. lia.
Qed.

Lemma run_at_unindexed z x :
  0 <= z -> s !! Z.to_nat z = Some x -> b2j s !! x = None ->
  run_at s z = 0.
Proof.
  intros Hz Hx Hidx.
  assert (Hli : line_indexed s (Z.to_nat z) = false).
  { unfold line_indexed. rewrite Hx, Hidx.
    apply bool_decide_eq_false_2, is_Some_None. }
  unfold run_at. rewrite (proj2 (Z.ltb_ge z 0)) by lia.
  destruct (Z.to_nat z); cbn [indexed_run]; now rewrite Hli.
Qed.

(** One row of the scan: the entry on the diagonal is the longest of the
    row, and the entries before it are no longer than what was found in
    the rows above. *)
Lemma scan_row_diagonal i elt j2len :
  0 <= i ->
  s !! Z.to_nat i = Some elt ->
  is_Some (b2j s !! elt) ->
  (forall j v, j2len !! j = Some v ->
     v <= run_at s j /\ v <= run_at s (i - 1)) ->
  default 0 (j2len !! (i - 1)) = run_at s (i - 1) ->
  forall js new best,
    increasing js ->
    Forall (fun j => 0 <= j < lb s /\ s !! Z.to_nat j = Some elt) js ->
    (forall j v, new !! j = Some v -> v <= run_at s j /\ v <= run_at s i) ->
    m_a best = m_b best ->
    (forall r, r < i -> run_at s r <= m_size best) ->
    In i js
    \/ (Forall (Z.lt i) js /\ run_at s i <= m_size best
        /\ new !! i = Some (run_at s i)) ->
    (forall j v, (scan_row 0 (lb s) i js j2len new best).1 !! j = Some v ->
       v <= run_at s j /\ v <= run_at s i)
    /\ (scan_row 0 (lb s) i js j2len new best).1 !! i = Some (run_at s i)
    /\ m_a (scan_row 0 (lb s) i js j2len new best).2
       = m_b (scan_row 0 (lb s) i js j2len new best).2
    /\ (forall r, r < i + 1 ->
          run_at s r <= m_size (scan_row 0 (lb s) i js j2len new best).2).
Proof.
  intros Hi Hrow Hidx Hold Hdiag.
  assert (Hstep_i : run_at s i = run_at s (i - 1) + 1)
    by now apply (run_at_indexed i elt).
  induction js as [|j js IH]; intros new best Hinc Hjs Hnew Hd Hbest Hphase.
  - simpl. destruct Hphase as [[]|(_ & Hi' & Hnewi)].
    split; [exact Hnew|]. split; [exact Hnewi|]. split; [exact Hd|].
    intros r Hr. destruct (Z.eq_dec r i) as [->|Hne];
      [exact Hi' | apply Hbest; lia].
  - destruct Hinc as [Hlt Hinc].
    inversion Hjs as [|? ? [Hj Hsj] Hjs']; subst.
    cbn [scan_row].
    rewrite (proj2 (Z.ltb_ge j 0)) by lia.
    rewrite (proj2 (Z.leb_gt (lb s) j)) by lia.
    set (k := default 0 (j2len !! (j - 1)) + 1).
    assert (Hstep_j : run_at s j = run_at s (j - 1) + 1)
      by (apply (run_at_indexed j elt); [lia | assumption | assumption]).
    assert (Hk : k <= run_at s j /\ k <= run_at s i).
    { unfold k. destruct (j2len !! (j - 1)) as [v|] eqn:E; simpl.
      - destruct (Hold _ _ E) as [H1 H2]. lia.
      - pose proof (run_at_nonneg (j - 1)). pose proof (run_at_nonneg (i - 1)).
        lia. }
    assert (Hnew' : forall j' v, <[j:=k]> new !! j' = Some v ->
                      v <= run_at s j' /\ v <= run_at s i).
    { intros j' v. rewrite lookup_insert. case_decide as Heq.
      - intros [= <-]. subst j'. exact Hk.
      - apply Hnew. }
    destruct (Z.lt_trichotomy j i) as [Hji|[Hji|Hji]].
    + (* a column before the diagonal *)
      pose proof (Hbest j Hji) as Hbj.
      rewrite (proj2 (Z.ltb_ge (m_size best) k)) by lia.
      apply IH; try assumption.
      destruct Hphase as [[Heq|Hin]|(Hall & _)].
      * lia.
      * now left.
      * inversion Hall; subst. lia.
    + (* the diagonal *)
      subst j.
      assert (Hki : k = run_at s i) by (unfold k; rewrite Hdiag; lia).
      assert (Hphase' : forall best',
                 run_at s i <= m_size best' ->
                 In i js
                 \/ (Forall (Z.lt i) js /\ run_at s i <= m_size best'
                     /\ <[i:=k]> new !! i = Some (run_at s i))).
      { intros best' Hb'. right. split; [exact Hlt|]. split; [exact Hb'|].
        rewrite lookup_insert, decide_True by reflexivity. now rewrite Hki. }
      destruct (m_size best <? k) eqn:E.
      * apply IH; try assumption; [reflexivity | |].
        -- intros r Hr. cbn [m_size]. pose proof (Hbest r Hr).
           apply Z.ltb_lt in E. lia.
        -- apply Hphase'. cbn [m_size]. lia.
      * apply Z.ltb_ge in E. apply IH; try assumption.
        apply Hphase'. lia.
    + (* a column after the diagonal *)
      destruct Hphase as [[Heq|Hin]|(Hall & Hbi & Hnewi)].
      * lia.
      * apply List.Forall_forall with (x := i) in Hlt; [lia | exact Hin].
      * rewrite (proj2 (Z.ltb_ge (m_size best) k)) by lia.
        apply IH; try assumption.
        right. inversion Hall; subst. split; [assumption|].
        split; [assumption|].
        rewrite lookup_insert, decide_False by lia. exact Hnewi.
Qed.

Lemma scan_rows_fold_diagonal n : forall r (st : gmap Z Z * Match),
  0 <= r ->
  r + Z.of_nat n <= lb s ->
  (forall j v, st.1 !! j = Some v ->
     v <= run_at s j /\ v <= run_at s (r - 1)) ->
  default 0 (st.1 !! (r - 1)) = run_at s (r - 1) ->
  m_a st.2 = m_b st.2 ->
  (forall r', r' < r -> run_at s r' <= m_size st.2) ->
  m_a (fold_left
         (fun (st : gmap Z Z * Match) i =>
            let js := match a_at s i with
                      | Some elt => default [] (b2j s !! elt)
                      | None => []
                      end in
            scan_row 0 (lb s) i js st.1 ∅ st.2)
         (seqZ r (Z.of_nat n)) st).2
  = m_b (fold_left
           (fun (st : gmap Z Z * Match) i =>
              let js := match a_at s i with
                        | Some elt => default [] (b2j s !! elt)
                        | None => []
                        end in
              scan_row 0 (lb s) i js st.1 ∅ st.2)
           (seqZ r (Z.of_nat n)) st).2.
Proof.
  induction n as [|n IH]; intros r st Hr Hn Hold Hdiag Hd Hbest.
  - simpl. assumption.
  - rewrite seqZ_cons by lia. simpl fold_left.
    replace (Z.pred (Z.of_nat (S n))) with (Z.of_nat n) by lia.
    set (js := match a_at s r with
               | Some elt => default [] (b2j s !! elt)
               | None => []
               end).
    assert (Hrow :
      (forall j v, (scan_row 0 (lb s) r js st.1 ∅ st.2).1 !! j = Some v ->
         v <= run_at s j /\ v <= run_at s r)
      /\ default 0 ((scan_row 0 (lb s) r js st.1 ∅ st.2).1 !! r) = run_at s r
      /\ m_a (scan_row 0 (lb s) r js st.1 ∅ st.2).2
         = m_b (scan_row 0 (lb s) r js st.1 ∅ st.2).2
      /\ (forall r', r' < r + 1 ->
            run_at s r' <= m_size (scan_row 0 (lb s) r js st.1 ∅ st.2).2)).
    { destruct (lookup_lt_is_Some_2 s (Z.to_nat r)) as [elt Helt];
        [unfold lb in Hn; lia|].
      subst js. unfold a_at. rewrite Helt.
      destruct (b2j s !! elt) as [js|] eqn:Hjs; simpl default.
      - pose proof (b2j_positions s elt js Hjs) as Hpos.
        destruct (scan_row_diagonal r elt st.1 Hr Helt (mk_is_Some _ _ Hjs)
                    Hold Hdiag js ∅ st.2) as (H1 & H2 & H3 & H4).
        + rewrite Hpos. apply positions_from_increasing.
        + eapply List.Forall_impl; [|exact (b2j_sound s elt js Hjs)].
          intros j [Hj Hbj]. unfold b_at in Hbj.
          pose proof (lookup_lt_Some _ _ _ Hbj). unfold lb.
          split; [lia | exact Hbj].
        + intros j v. now rewrite lookup_empty.
        + exact Hd.
        + exact Hbest.
        + left. rewrite Hpos. apply positions_from_In.
          exists (Z.to_nat r). split; [lia | exact Helt].
        + split; [exact H1|]. split; [now rewrite H2|]. split; assumption.
      - pose proof (run_at_unindexed r elt Hr Helt Hjs) as H0.
        cbn [scan_row fst snd].
        split; [intros j v; now rewrite lookup_empty|].
        split; [now rewrite lookup_empty, H0|]. split; [exact Hd|].
        intros r' Hr'. destruct (Z.eq_dec r' r) as [->|Hne].
        + rewrite H0. pose proof (Hbest (r - 1)). pose proof (run_at_nonneg (r - 1)).
          lia.
        + apply Hbest. lia. }
    destruct Hrow as (H1 & H2 & H3 & H4).
    apply IH; [lia | lia | | | assumption |].
    + now replace (Z.succ r - 1) with r by lia.
    + now replace (Z.succ r - 1) with r by lia.
    + intros r' Hr'. apply H4. lia.
Qed.

Lemma scan_rows_diagonal :
  m_a (scan_rows s s 0 (lb s) 0 (lb s)) = m_b (scan_rows s s 0 (lb s) 0 (lb s)).
Proof.
  unfold scan_rows. rewrite Z.sub_0_r. unfold lb at 1 3.
  apply scan_rows_fold_diagonal.
  - lia.
  - unfold lb. lia.
  - intros j v. cbn [fst]. now rewrite lookup_empty.
  - cbn [fst]. rewrite lookup_empty. now rewrite run_at_neg by lia.
  - reflexivity.
  - intros r Hr. rewrite run_at_neg by lia. simpl. lia.
Qed.

Lemma same_line_refl p : 0 <= p < lb s -> same_line s s p p = true.
Proof.
  intros Hp. unfold same_line, a_at, b_at.
  destruct (lookup_lt_is_Some_2 s (Z.to_nat p)) as [x ->];
    [unfold lb in Hp; lia|].
  now apply bool_decide_eq_true_2.
Qed.

Lemma b_junk_at_false (b : list str) j : b_junk_at b j = false.
Proof. unfold b_junk_at. now destruct (b_at b j). Qed.

Lemma extend_left_diagonal fuel : forall p k,
  0 <= p <= Z.of_nat fuel -> 0 <= k -> p + k <= lb s ->
  extend_left s s 0 0 false fuel (mkMatch p p k) = mkMatch 0 0 (p + k).
Proof.
  induction fuel as [|fuel IH]; intros p k Hp Hk Hn.
  - simpl. f_equal; lia.
  - cbn [extend_left m_a m_b m_size].
    destruct (Z.eq_dec p 0) as [->|Hne]; [reflexivity|].
    rewrite (proj2 (Z.ltb_lt 0 p)) by lia.
    rewrite b_junk_at_false, bool_decide_eq_true_2 by reflexivity.
    rewrite same_line_refl by lia. simpl andb.
    rewrite IH by lia. f_equal. lia.
Qed.

Lemma extend_right_diagonal fuel : forall k,
  0 <= k <= lb s -> lb s - k <= Z.of_nat fuel ->
  extend_right s s (lb s) (lb s) false fuel (mkMatch 0 0 k) = mkMatch 0 0 (lb s).
Proof.
  induction fuel as [|fuel IH]; intros k Hk Hn.
  - simpl. f_equal; lia.
  - cbn [extend_right m_a m_b m_size]. rewrite Z.add_0_l.
    destruct (Z.eq_dec k (lb s)) as [->|Hne].
    + now rewrite Z.ltb_irrefl.
    + rewrite (proj2 (Z.ltb_lt k (lb s))) by lia.
      rewrite b_junk_at_false, bool_decide_eq_true_2 by reflexivity.
      rewrite same_line_refl by lia. simpl andb.
      apply IH; lia.
Qed.

(** The longest match of a sequence with itself is the whole of it. *)
Lemma find_longest_match_same :
  find_longest_match s s 0 (lb s) 0 (lb s) = mkMatch 0 0 (lb s).
Proof.
  assert (Hproper : proper (0, lb s, 0, lb s)).
  { unfold proper, r_alo, r_ahi, r_blo, r_bhi, lb. simpl. lia. }
  pose proof (scan_rows_good s s 0 (lb s) 0 (lb s) Hproper) as (Hin & Hsz & _).
  pose proof scan_rows_diagonal as Hd.
  unfold find_longest_match.
  destruct (scan_rows s s 0 (lb s) 0 (lb s)) as [p q k].
  unfold inside, range_of, r_alo, r_ahi, r_blo, r_bhi in Hin.
  simpl in Hin, Hsz, Hd. subst q.
  assert (Hgrow : grow s s 0 (lb s) 0 (lb s) false (mkMatch p p k)
                  = mkMatch 0 0 (lb s)).
  { unfold grow. cbn [m_a]. rewrite extend_left_diagonal by lia.
    cbn [m_a m_size]. apply extend_right_diagonal; lia. }
  rewrite Hgrow. apply grow_parked; reflexivity.
Qed.

Lemma get_matching_blocks_same :
  get_matching_blocks s s
  = (if lb s =? 0 then [] else [mkMatch 0 0 (lb s)]) ++ [mkMatch (lb s) (lb s) 0].
Proof.
  unfold get_matching_blocks, matching_fuel.
  replace (2 * length s + 1)%nat with (S (2 * length s)) by lia.
  change (la s) with (lb s). cbn [matching_loop].
  rewrite find_longest_match_same. cbn [m_a m_b m_size].
  destruct (lb s =? 0) eqn:E.
  - now rewrite matching_loop_nil.
  - rewrite Z.ltb_irrefl, Z.add_0_l, Z.ltb_irrefl. simpl andb. cbv iota.
    rewrite matching_loop_nil. simpl. now rewrite Z.add_0_l, E.
Qed.

Lemma get_opcodes_same :
  get_opcodes s s = if lb s =? 0 then [] else [Op Equal 0 (lb s) 0 (lb s)].
Proof.
  unfold get_opcodes. rewrite get_matching_blocks_same.
  destruct (lb s =? 0) eqn:E.
  - apply Z.eqb_eq in E. rewrite E. reflexivity.
  - cbn [app opcodes_from]. rewrite E, !Z.add_0_l, !Z.ltb_irrefl. reflexivity.
Qed.

Lemma group_loop_one_equal n i1 i2 j1 j2 :
  0 <= n ->
  group_loop n (trim_last n (trim_first n [Op Equal i1 i2 j1 j2])) [] = [].
Proof.
  intros Hn. cbn [trim_first trim_last group_loop is_equal andb].
  now rewrite (proj2 (Z.ltb_ge _ _)) by lia.
Qed.

Lemma get_grouped_opcodes_same n : 0 <= n -> get_grouped_opcodes s s n = [].
Proof.
  intros Hn. unfold get_grouped_opcodes. rewrite get_opcodes_same.
  destruct (lb s =? 0); now apply group_loop_one_equal.
Qed.

Lemma unified_diff_same fromfile tofile fromfiledate tofiledate lineterm :
  unified_diff s s fromfile tofile fromfiledate tofiledate 3 lineterm = [].
Proof.
  unfold unified_diff. now rewrite get_grouped_opcodes_same by lia.
Qed.

End Same.

Lemma generate_diff_same_lines (old : option str) (new : str) :
  splitlines (default [] old) = splitlines new ->
  generate_diff old new = [].
Proof.
  intros H. unfold generate_diff.
  now rewrite old_lines_default, H, unified_diff_same.
Qed.

(** X20. The diff is empty exactly when the old and the new text have the
    same lines; an absent old text counts as one without lines. Equal
    sequences of any length give no hunk, also where the matcher drops
    lines from its index as too frequent. *)
Theorem generate_diff_empty_iff (old : option str) (new : str) :
  generate_diff old new = []
  <-> splitlines (default [] old) = splitlines new.
Proof.
  split.
  - intros H.
    destruct (decide (splitlines (default [] old) = splitlines new)) as [E|E];
      [exact E|].
    now apply generate_diff_lines_differ in E.
  - apply generate_diff_same_lines.
Qed.

(** X21. A change can be reported without a diff. When the digests differ
    but the old and the new text have the same lines (a snapshot file that
    ends in a line break, say, or a first run over a page without text),
    the mail holds the summary alone, without the DIFF heading, and the
    snapshot is replaced by the new text. *)
Theorem change_without_diff
        (cfg : Config) (env : Env) (w : World) (html h : str)
        (oc oh : option str) :
  let content := normalize_text (soup_get_text env html) in
  http_get env = Ok html ->
  make_hash content = Ok h ->
  get_last_snapshot w = (Ok (oc, oh), w) ->
  oh <> Some h ->
  splitlines (default [] oc) = splitlines content ->
  smtp_fault env = None ->
  main cfg env w
  = (Ok tt,
     mkWorld (Some content)
       (trace w ++ [HttpGet (URL cfg) USER_AGENT]
          ++ smtp_log cfg (mkEmail (FROM_EMAIL cfg) (TO_EMAIL cfg)
                             (change_subject cfg) (change_body cfg env h)) None
          ++ [FileWritten SNAPSHOT_FILE content;
              Printed (lit "Change detected -> email sent")])).
Proof.
  intros content. subst content. intros Hget Hh Hsnap Hne Hlines Hok.
  rewrite (main_change cfg env w html h oc oh Hget Hh Hsnap Hne).
  cbv zeta. rewrite Hok, (generate_diff_same_lines _ _ Hlines).
  reflexivity.
Qed.

Lemma change_without_diff_witness :
  main demo_cfg (demo_env None demo_page)
    (mkWorld (Some (nl_join ["a"; "x"] ++ [LF])) [])
  = (Ok tt,
     mkWorld (Some (nl_join ["a"; "x"]))
       ([HttpGet (URL demo_cfg) USER_AGENT]
          ++ smtp_log demo_cfg
               (mkEmail (FROM_EMAIL demo_cfg) (TO_EMAIL demo_cfg)
                  (change_subject demo_cfg)
                  (change_body demo_cfg (demo_env None demo_page) hash_ax)) None
          ++ [FileWritten SNAPSHOT_FILE (nl_join ["a"; "x"]);
              Printed (lit "Change detected -> email sent")])).
Proof.
  apply (change_without_diff demo_cfg (demo_env None demo_page)
           (mkWorld (Some (nl_join ["a"; "x"] ++ [LF])) []) demo_page hash_ax
           (Some (nl_join ["a"; "x"] ++ [LF]))
           (Some (lit "7a0e624fe91589d1deb4c2eb4dd23be329140728ca8c8571bcdc13124cf0f5a2"))).
  - reflexivity.
  - vm_compute. reflexivity.
  - vm_compute. reflexivity.
  - intros H. vm_compute in H. discriminate H.
  - reflexivity.
  - reflexivity.
Defined.
